(** * silicon/sqlite.hh: the SQLite marshalling layer

    A shallow embedding of [iod::sqlite_statement] and [iod::sqlite_database]
    (silicon/sqlite.hh).  The SQLite engine is an external collaborator: the
    layer only sees the answers of the [sqlite3_*] calls, so a prepared
    statement is modelled by the answers the engine gives for it. *)

From Stdlib Require Import ZArith String Ascii List Lia.
From Stdlib Require Import Floats.PrimFloat Floats.SpecFloat Floats.FloatOps.
From stdpp Require Import base option list gmap strings.

Local Open Scope string_scope.
Local Open Scope list_scope.
Local Open Scope Z_scope.

(** ** Result codes and flags of sqlite3.h used by the layer *)

Definition SQLITE_OK : Z := 0.
Definition SQLITE_ROW : Z := 100.
Definition SQLITE_DONE : Z := 101.
Definition SQLITE_OPEN_READWRITE : Z := 2.
Definition SQLITE_OPEN_CREATE : Z := 4.

Definition SQLITE_MISUSE : Z := 21.

(** Native handles ([sqlite3*], [sqlite3_stmt*]) are addresses. *)
Abbreviation ptr := Z.
Definition nullptr : ptr := 0.

(** ** C strings and [strcmp]

    A name ([const char*]) is modelled by the bytes before its terminator.
    [strcmp] compares byte by byte as unsigned chars; only the sign of its
    result is specified, so the model returns -1, 0 or 1. *)

Fixpoint strcmp (s1 s2 : string) : Z :=
  match s1, s2 with
  | EmptyString, EmptyString => 0
  | EmptyString, String _ _ => -1
  | String _ _, EmptyString => 1
  | String c1 r1, String c2 r2 =>
      if (N_of_ascii c1 =? N_of_ascii c2)%N then strcmp r1 r2
      else if (N_of_ascii c1 <? N_of_ascii c2)%N then -1 else 1
  end.

(** A [size_t] converted to [int], as where [s.size()] is passed for an [int]
    parameter: the value modulo 2^32, read as a signed 32-bit integer. *)
Definition int_of_size_t (n : Z) : Z :=
  (n + 2 ^ 31) mod 2 ^ 32 - 2 ^ 31.

(** [s.size()] as the [int] argument of an engine call. *)
Definition size_as_int (s : string) : Z :=
  int_of_size_t (Z.of_nat (String.length s)).

(** [std::string(const char* s, size_t n)]: the first [n] bytes at [s]. *)
Definition std_string (s : string) (n : Z) : string :=
  String.substring 0 (Z.to_nat n) s.

(** ** Scalars and records

    The five types [read_column] is overloaded on (sqlite.hh:91-99).  A C++
    [double] is a binary64 float; a C++ [float] is kept as the binary64
    value of its binary32 content. *)

Inductive scalar :=
| v_int (v : Z)
| v_float (v : float)
| v_double (v : float)
| v_int64 (v : Z)
| v_string (v : string).

(** Conversion [double -> float] of the assignment [v = sqlite3_column_double]
    into a [float&]: rounding to binary32 (precision 24, emax 128). *)
Definition double_to_float (d : float) : float :=
  match Prim2SF d with
  | S754_finite s m e =>
      SF2Prim (binary_normalize 24 128 (cond_Zopp s (Zpos m)) e s)
  | _ => d
  end.

(** A member of an [iod::sio<A...>]: its symbol name and its value.  The
    record is the list of its members in declaration order. *)
Record member := Member { symbol_name : string; value : scalar }.
Definition sio := list member.

(** ** The engine's view of a prepared statement

    For each column of the current row the engine answers [sqlite3_column_name]
    and the typed readers; a column is the tuple of these answers. *)

Record column := Column {
  col_name : string;
  col_int : Z;
  col_int64 : Z;
  col_double : float;
  col_text : string;
  col_bytes : Z
}.

(** What one [sqlite3_step] answers: the code and, for [SQLITE_ROW], the row. *)
Record step_result := StepResult { step_code : Z; step_row : list column }.

(** What [sqlite3_bind_double], [sqlite3_bind_int] and [sqlite3_bind_text]
    hand to the engine. *)
Inductive bound :=
| b_double (d : float)
| b_int (d : Z)
| b_text (data : string) (n : Z) (destructor : ptr).

(** The cursor of a statement (spec, section 4.2). *)
Inductive cursor_state := not_started | row_available | exhausted | errored.

(** The statement object behind a [sqlite3_stmt*]: the answers of the coming
    [sqlite3_step] calls, the current row, the cursor, and the code the
    engine answers a bind with. *)
Record sqlite3_stmt := Stmt {
  pending : list step_result;
  row : list column;
  cursor : cursor_state;
  bind_code : Z -> bound -> Z
}.

(** Answers for a column index outside the row (the engine leaves them
    undefined; the layer never asks). *)
Definition no_column : column := Column "" 0 0 0%float "" 0.

Definition column_at (s : sqlite3_stmt) (i : nat) : column :=
  default no_column (row s !! i).

Definition sqlite3_column_count (s : sqlite3_stmt) : nat := length (row s).
Definition sqlite3_column_name (s : sqlite3_stmt) (i : nat) : string :=
  col_name (column_at s i).
Definition sqlite3_column_int (s : sqlite3_stmt) (i : nat) : Z :=
  col_int (column_at s i).
Definition sqlite3_column_int64 (s : sqlite3_stmt) (i : nat) : Z :=
  col_int64 (column_at s i).
Definition sqlite3_column_double (s : sqlite3_stmt) (i : nat) : float :=
  col_double (column_at s i).
Definition sqlite3_column_text (s : sqlite3_stmt) (i : nat) : string :=
  col_text (column_at s i).
Definition sqlite3_column_bytes (s : sqlite3_stmt) (i : nat) : Z :=
  col_bytes (column_at s i).

(** ** [sqlite_statement::read_column] (sqlite.hh:91-99)

    The overload is selected by the static type of the destination, that is
    by the constructor of the member's current value. *)
Definition read_column (s : sqlite3_stmt) (pos : nat) (v : scalar) : scalar :=
  match v with
  | v_int _ => v_int (sqlite3_column_int s pos)
  | v_float _ => v_float (double_to_float (sqlite3_column_double s pos))
  | v_double _ => v_double (sqlite3_column_double s pos)
  | v_int64 _ => v_int64 (sqlite3_column_int64 s pos)
  | v_string _ =>
      let str := sqlite3_column_text s pos in
      let n := sqlite3_column_bytes s pos in
      v_string (std_string str n)
  end.

(** ** [sqlite_statement::row_to_sio] (sqlite.hh:26-47)

    [None] is undefined behaviour: an access to [filled] outside its
    [sizeof...(A)] elements. *)

(** [foreach(o) | f]: [f] applied to every member in declaration order; the
    state is what the lambda captures by reference. *)
Fixpoint foreach {S : Type} (f : S -> member -> option (S * member))
    (st : S) (o : sio) : option (S * sio) :=
  match o with
  | [] => Some (st, [])
  | m :: o' =>
      '(st1, m') ← f st m;
      '(st2, o'') ← foreach f st1 o';
      Some (st2, m' :: o'')
  end.

(** The lambda of lines 37-45, for column [i] named [cname]; the captured
    state is [found] and [filled]. *)
Definition row_to_sio_lambda (s : sqlite3_stmt) (i : nat) (cname : string)
    (st : bool * list Z) (m : member) : option ((bool * list Z) * member) :=
  let '(found, filled) := st in
  if found then Some (st, m)
  else
    fi ← filled !! i;
    if negb (fi =? 0) then Some (st, m)
    else if strcmp cname (symbol_name m) =? 0 then
      Some ((true, <[i:=1]> filled),
            Member (symbol_name m) (read_column s i (value m)))
    else Some (st, m).

(** The [for] loop of lines 33-46 over the column indices. *)
Fixpoint row_to_sio_columns (s : sqlite3_stmt) (cols : list nat)
    (filled : list Z) (o : sio) : option (list Z * sio) :=
  match cols with
  | [] => Some (filled, o)
  | i :: cols' =>
      let cname := sqlite3_column_name s i in
      '(st, o') ← foreach (row_to_sio_lambda s i cname) (false, filled) o;
      row_to_sio_columns s cols' (snd st) o'
  end.

Definition row_to_sio (s : sqlite3_stmt) (o : sio) : option sio :=
  let ncols := sqlite3_column_count s in
  let filled := replicate (length o) 0 in
  snd <$> row_to_sio_columns s (seq 0 ncols) filled o.

(** ** The engine and the effects of the layer

    The layer is sequential code that calls the engine, throws
    [std::runtime_error] and owns handles through [std::shared_ptr].  The
    world holds the engine's answers, the prepared statements that are not
    finalized, the use counts of the shared pointers and the log of the
    calls made so far on the engine's handles (oldest first). *)

Inductive call :=
| call_open_v2 (filename : string) (flags : Z)
| call_close_v2 (db : ptr)
| call_prepare_v2 (db : ptr) (zSql : string) (nByte : Z)
| call_finalize (stmt : ptr)
| call_bind (stmt : ptr) (pos : Z) (b : bound)
| call_step (stmt : ptr)
| call_column_count (stmt : ptr)
| call_column_name (stmt : ptr) (i : nat)
| call_column_int (stmt : ptr) (i : nat)
| call_column_double (stmt : ptr) (i : nat)
| call_column_int64 (stmt : ptr) (i : nat)
| call_column_text (stmt : ptr) (i : nat)
| call_column_bytes (stmt : ptr) (i : nat).

Record engine := Engine {
  open_answer : string -> Z -> Z * ptr;
  prepare_answer : ptr -> string -> Z -> Z * ptr * sqlite3_stmt;
  sqlite3_errstr : Z -> string
}.

Record world := World {
  eng : engine;
  statements : gmap Z sqlite3_stmt;
  use_count : gmap Z nat;
  calls : list call
}.

Inductive exn := runtime_error (what : string).

(** How a call ends: it returns, it throws, or its behaviour is undefined. *)
Inductive outcome (A : Type) :=
| Returned (a : A)
| Thrown (e : exn)
| Undefined.
Arguments Returned {A} a.
Arguments Thrown {A} e.
Arguments Undefined {A}.

Definition M (A : Type) : Type := world -> outcome A * world.

Definition ret {A} (a : A) : M A := fun w => (Returned a, w).
Definition throw {A} (e : exn) : M A := fun w => (Thrown e, w).
Definition undefined {A} : M A := fun w => (Undefined, w).
Definition bindM {A B} (m : M A) (k : A -> M B) : M B :=
  fun w =>
    match m w with
    | (Returned a, w') => k a w'
    | (Thrown e, w') => (Thrown e, w')
    | (Undefined, w') => (Undefined, w')
    end.

Notation "x <- m ;; k" := (bindM m (fun x => k))
  (at level 100, m at next level, right associativity).

Definition get : M world := fun w => (Returned w, w).
Definition log (c : call) : M unit :=
  fun w =>
    (Returned tt, World (eng w) (statements w) (use_count w) (calls w ++ [c])).
Definition log_all (cs : list call) : M unit :=
  fun w =>
    (Returned tt, World (eng w) (statements w) (use_count w) (calls w ++ cs)).
Definition set_statements (f : gmap Z sqlite3_stmt -> gmap Z sqlite3_stmt)
  : M unit :=
  fun w =>
    (Returned tt, World (eng w) (f (statements w)) (use_count w) (calls w)).
Definition set_use_count (f : gmap Z nat -> gmap Z nat) : M unit :=
  fun w =>
    (Returned tt, World (eng w) (statements w) (f (use_count w)) (calls w)).
Definition of_option {A} (o : option A) : M A :=
  match o with Some a => ret a | None => undefined end.
Definition of_outcome {A} (r : outcome A) : M A := fun w => (r, w).

(** *** The engine's calls

    Modelled from the spec: the engine capability of section 6 (open, close,
    prepare, finalize, bind, step, and the column calls, whose answers are
    the current row of the statement); it is the external SQLite library,
    whose answers are data of the world. *)

Definition sqlite3_open_v2 (filename : string) (flags : Z) : M (Z * ptr) :=
  _ <- log (call_open_v2 filename flags) ;;
  w <- get ;;
  ret (open_answer (eng w) filename flags).

Definition sqlite3_close_v2 (db : ptr) : M unit := log (call_close_v2 db).

Definition sqlite3_prepare_v2 (db : ptr) (zSql : string) (nByte : Z)
  : M (Z * ptr) :=
  _ <- log (call_prepare_v2 db zSql nByte) ;;
  w <- get ;;
  let '(err, p, obj) := prepare_answer (eng w) db zSql nByte in
  _ <- (if err =? SQLITE_OK then set_statements <[p:=obj]> else ret tt) ;;
  ret (err, p).

Definition sqlite3_finalize (stmt : ptr) : M unit :=
  _ <- log (call_finalize stmt) ;;
  set_statements (delete stmt).

Definition sqlite3_bind (stmt : ptr) (pos : Z) (b : bound) : M Z :=
  _ <- log (call_bind stmt pos b) ;;
  w <- get ;;
  ret (match statements w !! stmt with
       | Some s => bind_code s pos b
       | None => SQLITE_MISUSE
       end).

Definition sqlite3_bind_double (stmt : ptr) (pos : Z) (d : float) : M Z :=
  sqlite3_bind stmt pos (b_double d).
Definition sqlite3_bind_int (stmt : ptr) (pos : Z) (d : Z) : M Z :=
  sqlite3_bind stmt pos (b_int d).
Definition sqlite3_bind_text (stmt : ptr) (pos : Z) (data : string) (n : Z)
    (destructor : ptr) : M Z :=
  sqlite3_bind stmt pos (b_text data n destructor).

Definition cursor_of_code (code : Z) : cursor_state :=
  if code =? SQLITE_ROW then row_available
  else if code =? SQLITE_DONE then exhausted
  else errored.

(** One step: the next pending answer; once they are used up the statement
    is done. *)
Definition step_stmt (s : sqlite3_stmt) : Z * sqlite3_stmt :=
  match pending s with
  | [] => (SQLITE_DONE, Stmt [] [] exhausted (bind_code s))
  | r :: rest =>
      (step_code r,
       Stmt rest (step_row r) (cursor_of_code (step_code r)) (bind_code s))
  end.

Definition sqlite3_step (stmt : ptr) : M Z :=
  _ <- log (call_step stmt) ;;
  w <- get ;;
  match statements w !! stmt with
  | Some s =>
      let '(code, s') := step_stmt s in
      _ <- set_statements <[stmt:=s']> ;;
      ret code
  | None => ret SQLITE_MISUSE
  end.

Definition errstr (code : Z) : M string :=
  w <- get ;; ret (sqlite3_errstr (eng w) code).

(** *** [std::shared_ptr] with a custom deleter

    A control block is the use count kept for the managed address.  The last
    owner to go runs the deleter. *)

Definition shared_ptr_new (p : ptr) : M ptr :=
  _ <- set_use_count <[p:=1%nat]> ;; ret p.

Definition shared_ptr_copy (p : ptr) : M ptr :=
  _ <- set_use_count (alter S p) ;; ret p.

Definition shared_ptr_release (deleter : ptr -> M unit) (p : ptr) : M unit :=
  w <- get ;;
  match use_count w !! p with
  | Some 1%nat => _ <- set_use_count (delete p) ;; deleter p
  | Some (S n) => set_use_count <[p:=n]>
  | _ => undefined
  end.

(** ** [sqlite_statement] (sqlite.hh:17-103) *)

(** sqlite.hh:12-15 *)
Definition free_sqlite3_statement (s : ptr) : M unit := sqlite3_finalize s.

Record sqlite_statement := SqliteStatement { stmt_ : ptr; stmt_sptr_ : ptr }.

(** The constructor, sqlite.hh:21-24. *)
Definition sqlite_statement_new (s : ptr) : M sqlite_statement :=
  sp <- shared_ptr_new s ;;
  ret (SqliteStatement s sp).

(** The implicit destructor: it releases [stmt_sptr_]. *)
Definition sqlite_statement_delete (this : sqlite_statement) : M unit :=
  shared_ptr_release free_sqlite3_statement (stmt_sptr_ this).

(** The engine calls that [row_to_sio] makes on the handle [p], in the order
    of the code: [sqlite3_column_count] (line 29); for every column its
    [sqlite3_column_name] (line 35) and, at the member that takes the column,
    the calls of the [read_column] overload (lines 91-99).  Where [row_to_sio]
    runs into undefined behaviour the calls made until then are listed. *)
Definition read_column_calls (p : ptr) (pos : nat) (v : scalar) : list call :=
  match v with
  | v_int _ => [call_column_int p pos]
  | v_float _ => [call_column_double p pos]
  | v_double _ => [call_column_double p pos]
  | v_int64 _ => [call_column_int64 p pos]
  | v_string _ => [call_column_text p pos; call_column_bytes p pos]
  end.

Definition row_to_sio_lambda_calls (p : ptr) (i : nat) (cname : string)
    (st : bool * list Z) (m : member) : list call :=
  let '(found, filled) := st in
  if found then []
  else
    match filled !! i with
    | None => []
    | Some fi =>
        if negb (fi =? 0) then []
        else if strcmp cname (symbol_name m) =? 0 then
          read_column_calls p i (value m)
        else []
    end.

Fixpoint foreach_calls {S : Type} (f : S -> member -> option (S * member))
    (g : S -> member -> list call) (st : S) (o : sio) : list call :=
  match o with
  | [] => []
  | m :: o' =>
      g st m ++ match f st m with
                | Some (st1, _) => foreach_calls f g st1 o'
                | None => []
                end
  end.

Fixpoint row_to_sio_columns_calls (p : ptr) (s : sqlite3_stmt)
    (cols : list nat) (filled : list Z) (o : sio) : list call :=
  match cols with
  | [] => []
  | i :: cols' =>
      let cname := sqlite3_column_name s i in
      call_column_name p i
      :: foreach_calls (row_to_sio_lambda s i cname)
           (row_to_sio_lambda_calls p i cname) (false, filled) o
      ++ match foreach (row_to_sio_lambda s i cname) (false, filled) o with
         | Some (st, o') => row_to_sio_columns_calls p s cols' (snd st) o'
         | None => []
         end
  end.

Definition row_to_sio_calls (p : ptr) (s : sqlite3_stmt) (o : sio)
  : list call :=
  call_column_count p
  :: row_to_sio_columns_calls p s (seq 0 (sqlite3_column_count s))
       (replicate (length o) 0) o.

(** The method [row_to_sio] on the statement object behind [stmt_]: its
    engine calls are logged and its result is [row_to_sio]'s.  A handle that
    is not a prepared statement has no defined answers. *)
Definition sqlite_statement_row_to_sio (this : sqlite_statement) (o : sio)
  : M sio :=
  w <- get ;;
  match statements w !! stmt_ this with
  | Some s =>
      _ <- log_all (row_to_sio_calls (stmt_ this) s o) ;;
      of_option (row_to_sio s o)
  | None =>
      _ <- log (call_column_count (stmt_ this)) ;;
      undefined
  end.

(** [operator>>], sqlite.hh:49-57.  The function is declared [int] and no
    path has a [return]: after [row_to_sio(o)] control reaches the closing
    brace of a function that returns a value, which is undefined behaviour.
    The record is passed by reference; with no defined outcome on that path,
    what [row_to_sio] wrote into it is part of no result. *)
Definition operator_shr (this : sqlite_statement) (o : sio) : M Z :=
  code <- sqlite3_step (stmt_ this) ;;
  if negb (code =? SQLITE_ROW) then
    throw (runtime_error "sqlite3_step did not return SQLITE_ROW.")
  else
    _ <- sqlite_statement_row_to_sio this o ;;
    undefined.

(** [operator|], sqlite.hh:59-70.  [T0] is the default-constructed record
    [T o;] and [f] the visitor: called on a record with the state it
    captures, it returns with a new state, throws, or has undefined
    behaviour; an exception leaves the loop, as nothing catches it.  (A
    visitor that itself calls the engine is not covered.)  Each step
    uses up one pending answer, so the loop body runs at most once more than
    there are pending answers; [operator_pipe] starts the loop with that
    bound. *)
Fixpoint operator_pipe_loop {A : Type} (bound : nat) (this : sqlite_statement)
    (T0 : sio) (f : sio -> A -> outcome A) (acc : A) : M A :=
  match bound with
  | O => undefined
  | S bound' =>
      code <- sqlite3_step (stmt_ this) ;;
      if code =? SQLITE_ROW then
        o <- sqlite_statement_row_to_sio this T0 ;;
        acc' <- of_outcome (f o acc) ;;
        operator_pipe_loop bound' this T0 f acc'
      else ret acc
  end.

Definition pending_steps (w : world) (stmt : ptr) : nat :=
  match statements w !! stmt with
  | Some s => length (pending s)
  | None => 0%nat
  end.

Definition operator_pipe {A : Type} (this : sqlite_statement) (T0 : sio)
    (f : sio -> A -> outcome A) (acc : A) : M A :=
  w <- get ;;
  operator_pipe_loop (S (pending_steps w (stmt_ this))) this T0 f acc.

(** A visitor that always returns: [g] is what it does to the state. *)
Definition returns {A : Type} (g : sio -> A -> A) : sio -> A -> outcome A :=
  fun o a => Returned (g o a).

(** [append_to], sqlite.hh:72-76: the visitor is [v.push_back(o)] (taken to
    find the memory it needs). *)
Definition append_to (this : sqlite_statement) (T0 : sio) (v : list sio)
  : M (list sio) :=
  operator_pipe this T0 (returns (fun o v => v ++ [o])) v.

(** ** [sqlite_database] (sqlite.hh:111-158) *)

(** sqlite.hh:106-109 *)
Definition free_sqlite3_db (db : ptr) : M unit := sqlite3_close_v2 db.

Record sqlite_database := SqliteDatabase { db_ : ptr; db_sptr_ : option ptr }.

(** The constructor, sqlite.hh:115-117. *)
Definition sqlite_database_new : sqlite_database := SqliteDatabase nullptr None.

(** [connect], sqlite.hh:119-126; the result is the object after the call.
    Assigning [db_sptr_] lets go of the pointer it held.  When the call
    throws, [db_] has been written by [sqlite3_open_v2] and [db_sptr_] is as
    before; no claim below looks at the object after a failed [connect]. *)
Definition connect (this : sqlite_database) (filename : string) (flags : Z)
  : M sqlite_database :=
  x <- sqlite3_open_v2 filename flags ;;
  let '(r, db) := x in
  if negb (r =? SQLITE_OK) then
    msg <- errstr r ;;
    throw (runtime_error ("Cannot open database " +:+ filename +:+ " " +:+ msg))
  else
    sp <- shared_ptr_new db ;;
    _ <- match db_sptr_ this with
         | Some old => shared_ptr_release free_sqlite3_db old
         | None => ret tt
         end ;;
    ret (SqliteDatabase db (Some sp)).

Definition connect_default (this : sqlite_database) (filename : string)
  : M sqlite_database :=
  connect this filename (Z.lor SQLITE_OPEN_READWRITE SQLITE_OPEN_CREATE).

(** The three overloads of [bind], sqlite.hh:129-133. *)
Inductive bind_arg :=
| arg_double (d : float)
| arg_int (d : Z)
| arg_string (s : string).

Definition bind (stmt : ptr) (pos : Z) (a : bind_arg) : M Z :=
  match a with
  | arg_double d => sqlite3_bind_double stmt pos d
  | arg_int d => sqlite3_bind_int stmt pos d
  | arg_string s => sqlite3_bind_text stmt pos s (size_as_int s) nullptr
  end.

(** Overload resolution of [bind(stmt, i, m)] for an argument of each scalar
    type: [int] and [double] match exactly, [float] is promoted to [double],
    [std::string] binds to the reference; an [int64_t] converts to [int] and
    to [double] with the same rank, so the call is ambiguous and rejected. *)
Definition bind_overload (v : scalar) : option bind_arg :=
  match v with
  | v_int d => Some (arg_int d)
  | v_float d => Some (arg_double d)
  | v_double d => Some (arg_double d)
  | v_int64 _ => None
  | v_string s => Some (arg_string s)
  end.

(** The [foreach] over the arguments of [operator()], sqlite.hh:144-151; it
    returns the position after the last bind. *)
Fixpoint bind_args (stmt : ptr) (i : Z) (args : list bind_arg) : M Z :=
  match args with
  | [] => ret i
  | m :: args' =>
      err <- bind stmt i m ;;
      if negb (err =? SQLITE_OK) then
        msg <- errstr err ;;
        throw (runtime_error ("Sqlite error during binding: " +:+ msg))
      else bind_args stmt (i + 1) args'
  end.

(** [operator()], sqlite.hh:135-154. *)
Definition operator_call (this : sqlite_database) (req : string)
    (args : list bind_arg) : M sqlite_statement :=
  x <- sqlite3_prepare_v2 (db_ this) req (size_as_int req) ;;
  let '(err, stmt) := x in
  if negb (err =? SQLITE_OK) then
    msg <- errstr err ;;
    throw (runtime_error ("Sqlite error during prepare: " +:+ msg))
  else
    _ <- bind_args stmt 1 args ;;
    sqlite_statement_new stmt.

(** ** The column-matching procedure as the specification words it

    Section 4.3: every column in turn goes to the first field, in declaration
    order, whose name equals the column name and which no earlier column of
    the row has filled.  The flag next to a member tells whether it is
    filled. *)

Definition read_from (c : column) (v : scalar) : scalar :=
  match v with
  | v_int _ => v_int (col_int c)
  | v_float _ => v_float (double_to_float (col_double c))
  | v_double _ => v_double (col_double c)
  | v_int64 _ => v_int64 (col_int64 c)
  | v_string _ => v_string (std_string (col_text c) (col_bytes c))
  end.

Fixpoint spec_fill (c : column) (o : list (bool * member))
  : list (bool * member) :=
  match o with
  | [] => []
  | (is_filled, m) :: o' =>
      if negb is_filled && String.eqb (col_name c) (symbol_name m) then
        (true, Member (symbol_name m) (read_from c (value m))) :: o'
      else (is_filled, m) :: spec_fill c o'
  end.

Definition column_matching_spec (r : list column) (o : sio) : sio :=
  snd <$> fold_left (fun acc c => spec_fill c acc) r (pair false <$> o).

(** What the code does with one column when [filled] is read in bounds: the
    first member of that name is overwritten, filled or not. *)
Fixpoint assign (c : column) (o : sio) : sio :=
  match o with
  | [] => []
  | m :: o' =>
      if strcmp (col_name c) (symbol_name m) =? 0 then
        Member (symbol_name m) (read_from c (value m)) :: o'
      else m :: assign c o'
  end.

Definition names (o : sio) : list string := symbol_name <$> o.

Definition assign_all (r : list column) (o : sio) : sio :=
  fold_left (fun o c => assign c o) r o.


(** [row_to_sio] in closed form (see [row_to_sio_marshal]): it depends on the
    current row only. *)
Definition marshal (r : list column) (o : sio) : option sio :=
  if decide (length r ≤ length o)%nat then Some (assign_all r o)
  else if decide (o = []) then Some []
  else None.

(** ** Sample data *)

Definition accept_binds : Z -> bound -> Z := fun _ _ => SQLITE_OK.

Definition stmt_on_row (r : list column) : sqlite3_stmt :=
  Stmt [] r row_available accept_binds.

Definition record_a : sio := [Member "a" (v_int 0)].
Definition record_ab : sio := [Member "a" (v_int 0); Member "b" (v_int 7)].

Definition int_col (name : string) (v : Z) : column :=
  Column name v v 0%float "" 0.

(** [SELECT a, a]: two columns of the same name. *)
Definition row_a_a : list column := [int_col "a" 1; int_col "a" 2].
(** One column more than [record_a] has fields, and no field [extra]. *)
Definition row_a_extra : list column := [int_col "a" 1; int_col "extra" 9].
(** As many columns as [record_ab] has fields, one of them unmatched. *)
Definition row_extra_a : list column := [int_col "extra" 9; int_col "a" 1].

Definition sample_engine : engine :=
  Engine (fun _ _ => (SQLITE_OK, 1)) (fun _ _ _ => (SQLITE_OK, 2, stmt_on_row []))
         (fun _ => "").

Definition world_with (p : ptr) (s : sqlite3_stmt) : world :=
  World sample_engine {[p := s]} {[p := 1%nat]} [].

(** A statement whose result is the given rows, not yet stepped. *)
Definition stmt_with_rows (rows : list (list column)) : sqlite3_stmt :=
  Stmt (StepResult SQLITE_ROW <$> rows) [] not_started accept_binds.

Definition two_rows : list (list column) :=
  [[int_col "a" 1; int_col "b" 10]; [int_col "a" 2]].

(** The record [o] is what [row_to_sio] makes of the default-constructed
    record [T0] on the row [r]. *)
Definition marshalled (T0 : sio) (r : list column) (o : sio) : Prop :=
  row_to_sio (stmt_on_row r) T0 = Some o.

(** What [bind] hands to the engine for an argument (see [bind_run]), and the
    calls the loop of [operator()] makes for a list of arguments. *)
Definition bound_of (a : bind_arg) : bound :=
  match a with
  | arg_double d => b_double d
  | arg_int d => b_int d
  | arg_string s => b_text s (size_as_int s) nullptr
  end.

Fixpoint bind_calls (stmt : ptr) (i : Z) (args : list bind_arg) : list call :=
  match args with
  | [] => []
  | a :: args' =>
      call_bind stmt i (bound_of a) :: bind_calls stmt (i + 1) args'
  end.

(** The engine answers every bind of [args], from position [i] on, with
    [SQLITE_OK]. *)
Definition binds_accepted (obj : sqlite3_stmt) (i : Z) (args : list bind_arg)
  : Prop :=
  forall (k : nat) a, args !! k = Some a ->
    bind_code obj (i + Z.of_nat k) (bound_of a) = SQLITE_OK.

(** A call only adds to the log of engine calls. *)
Definition extends_log {A : Type} (m : M A) : Prop :=
  forall w, exists rest, calls (m w).2 = calls w ++ rest.

(** The types of two scalars are the same. *)
Definition same_type (v1 v2 : scalar) : Prop :=
  match v1, v2 with
  | v_int _, v_int _ | v_float _, v_float _ | v_double _, v_double _
  | v_int64 _, v_int64 _ | v_string _, v_string _ => True
  | _, _ => False
  end.

(** More sample data: an engine that cannot open [nowhere.db], rejects
    prepares on the null handle and the statement [nonsense], and prepares
    anything else as a statement with one placeholder. *)
Definition SQLITE_ERROR : Z := 1.
Definition SQLITE_BUSY : Z := 5.
Definition SQLITE_CANTOPEN : Z := 14.
Definition SQLITE_RANGE : Z := 25.

Definition one_placeholder : sqlite3_stmt :=
  Stmt [StepResult SQLITE_ROW [int_col "a" 1]] [] not_started
       (fun pos _ => if pos =? 1 then SQLITE_OK else SQLITE_RANGE).

Definition strict_engine : engine :=
  Engine
    (fun filename _ =>
       if String.eqb filename "nowhere.db" then (SQLITE_CANTOPEN, 8)
       else (SQLITE_OK, 8))
    (fun db zSql _ =>
       if db =? nullptr then (SQLITE_MISUSE, nullptr, one_placeholder)
       else if String.eqb zSql "nonsense" then
         (SQLITE_ERROR, nullptr, one_placeholder)
       else (SQLITE_OK, 2, one_placeholder))
    (fun code =>
       if code =? SQLITE_ERROR then "SQL logic error"
       else if code =? SQLITE_CANTOPEN then "unable to open database file"
       else if code =? SQLITE_MISUSE then "bad parameter or other API misuse"
       else if code =? SQLITE_RANGE then "column index out of range"
       else "unknown error").

Definition fresh_world : world := World strict_engine ∅ ∅ [].

Definition connected_db : sqlite_database := SqliteDatabase 8 (Some 8).

Definition stmt_empty : sqlite3_stmt :=
  Stmt [StepResult SQLITE_DONE []] [] not_started accept_binds.


(** The names of the members flagged as filled. *)
Fixpoint filled_names (o : list (bool * member)) : list string :=
  match o with
  | [] => []
  | (true, m) :: o' => symbol_name m :: filled_names o'
  | (false, _) :: o' => filled_names o'
  end.

(** ** The implicit members of the two classes

    [sqlite_statement] and [sqlite_database] declare no copy constructor and
    no destructor: the implicit ones copy and release the shared pointer. *)

Definition sqlite_statement_copy (this : sqlite_statement)
  : M sqlite_statement :=
  sp <- shared_ptr_copy (stmt_sptr_ this) ;;
  ret (SqliteStatement (stmt_ this) sp).

Definition sqlite_database_delete (this : sqlite_database) : M unit :=
  match db_sptr_ this with
  | Some sp => shared_ptr_release free_sqlite3_db sp
  | None => ret tt
  end.

(** The calls a function adds to the log all satisfy [P]. *)
Definition only_calls {A : Type} (P : call -> Prop) (m : M A) : Prop :=
  forall w, exists made, calls (m w).2 = calls w ++ made /\ Forall P made.

Definition is_prepare_or_bind (c : call) : Prop :=
  match c with
  | call_prepare_v2 _ _ _ | call_bind _ _ _ => True
  | _ => False
  end.

(** Two records have the same member names and types, in order. *)
Definition same_shape (o1 o2 : sio) : Prop :=
  Forall2 (fun m1 m2 => symbol_name m1 = symbol_name m2
                        /\ same_type (value m1) (value m2)) o1 o2.

(** More sample data. *)
Definition row_b_a : list column := [int_col "b" 5; int_col "a" 1].
Definition row_a_b : list column := [int_col "a" 1; int_col "b" 5].

Definition stmt_rows_then_busy : sqlite3_stmt :=
  Stmt [StepResult SQLITE_ROW [int_col "a" 1]; StepResult SQLITE_BUSY [];
        StepResult SQLITE_ROW [int_col "a" 2]]
       [] not_started accept_binds.

(** A call on the columns of the current row of the statement [p]. *)
Definition is_column_call (p : ptr) (c : call) : Prop :=
  match c with
  | call_column_count q | call_column_name q _ | call_column_int q _
  | call_column_double q _ | call_column_int64 q _ | call_column_text q _
  | call_column_bytes q _ => q = p
  | _ => False
  end.

Definition is_step (c : call) : bool :=
  match c with call_step _ => true | _ => false end.

(** How many calls of a list are [sqlite3_step] calls. *)
Definition steps_made (made : list call) : nat :=
  length (List.filter is_step made).

(** A row no wider than the record [T0]. *)
Definition fits (T0 : sio) (r : list column) : Prop :=
  (length r ≤ length T0)%nat.

(** More sample data: a record with two fields against a row of three
    columns, of which only the first matches; a visitor that throws. *)
Definition row_a_x_y : list column :=
  [int_col "a" 1; int_col "x" 2; int_col "y" 3].

(** * Properties *)

(** ** [strcmp] is exact, case-sensitive equality *)

Lemma strcmp_refl s : strcmp s s = 0.
Proof.
  induction s as [|c s IH]; simpl; [done|].
  by rewrite N.eqb_refl.
Qed.

Lemma strcmp_0_eq s1 s2 : strcmp s1 s2 = 0 -> s1 = s2.
Proof.
  revert s2; induction s1 as [|c1 r1 IH]; intros [|c2 r2]; simpl; try done.
  destruct (N.eqb_spec (N_of_ascii c1) (N_of_ascii c2)) as [E|E].
  - intros H. apply IH in H as ->.
    f_equal. rewrite <- (ascii_N_embedding c1), <- (ascii_N_embedding c2).
    by rewrite E.
  - by destruct (_ <? _)%N.
Qed.

Lemma strcmp_0 s1 s2 : strcmp s1 s2 = 0 <-> s1 = s2.
Proof. split; [apply strcmp_0_eq | intros ->; apply strcmp_refl]. Qed.

Lemma strcmp_eqb s1 s2 : (strcmp s1 s2 =? 0) = String.eqb s1 s2.
Proof.
  destruct (String.eqb_spec s1 s2) as [->|N].
  - by rewrite strcmp_refl.
  - apply Z.eqb_neq. by rewrite strcmp_0.
Qed.

Example strcmp_case_sensitive : strcmp "Name" "name" <> 0.
Proof. by vm_compute. Qed.

Lemma std_string_all s : std_string s (Z.of_nat (String.length s)) = s.
Proof.
  unfold std_string. rewrite Nat2Z.id.
  induction s as [|c s IH]; simpl; [done|]. by rewrite IH.
Qed.

Example double_to_float_rounds :
  double_to_float 16777217%float = 16777216%float.
Proof. by vm_compute. Qed.

(** ** [row_to_sio]: what the loops compute *)

Lemma read_column_from s i v : read_column s i v = read_from (column_at s i) v.
Proof. by destruct v. Qed.

Lemma foreach_found s i cname filled o :
  foreach (row_to_sio_lambda s i cname) (true, filled) o
  = Some ((true, filled), o).
Proof.
  induction o as [|m o IH]; simpl; [done|]. by rewrite IH.
Qed.

Lemma names_cons m o : names (m :: o) = symbol_name m :: names o.
Proof. done. Qed.

Lemma foreach_in_bounds s i (filled : list Z) o :
  filled !! i = Some 0 ->
  exists filled',
    foreach (row_to_sio_lambda s i (sqlite3_column_name s i)) (false, filled) o
    = Some ((bool_decide (col_name (column_at s i) ∈ names o), filled'),
            assign (column_at s i) o)
    /\ length filled' = length filled
    /\ forall j, j ≠ i -> filled' !! j = filled !! j.
Proof.
  intros Hi. unfold sqlite3_column_name.
  induction o as [|m o IH].
  - exists filled. split_and!; [|done..].
    rewrite bool_decide_eq_false_2; [done|]. apply not_elem_of_nil.
  - cbn [foreach row_to_sio_lambda assign]. rewrite Hi. cbn [mbind option_bind negb].
    change (0 =? 0) with true. cbn [negb]. rewrite names_cons.
    destruct (strcmp _ _ =? 0) eqn:E.
    + cbn [mbind option_bind]. rewrite foreach_found. cbn [mbind option_bind].
      exists (<[i:=1]> filled).
      apply Z.eqb_eq, strcmp_0 in E.
      rewrite bool_decide_eq_true_2 by (apply elem_of_cons; by left).
      rewrite read_column_from, length_insert. split_and!; [done..|].
      intros j Hj. by rewrite list_lookup_insert_ne.
    + cbn [mbind option_bind].
      destruct IH as (filled' & -> & Hlen & Hoth). cbn [mbind option_bind].
      exists filled'. split_and!; [|done..].
      apply Z.eqb_neq in E. rewrite strcmp_0 in E.
      do 3 f_equal. apply bool_decide_ext. rewrite elem_of_cons. tauto.
Qed.

Lemma foreach_out_of_bounds s i cname (filled : list Z) o :
  filled !! i = None -> o ≠ [] ->
  foreach (row_to_sio_lambda s i cname) (false, filled) o = None.
Proof.
  intros Hi Ho. destruct o as [|m o]; [done|]. simpl. by rewrite Hi.
Qed.

Lemma length_assign c o : length (assign c o) = length o.
Proof.
  induction o as [|m o IH]; simpl; [done|].
  destruct (_ =? 0); simpl; by rewrite ?IH.
Qed.

Lemma names_assign c o : names (assign c o) = names o.
Proof.
  induction o as [|m o IH]; simpl; [done|].
  destruct (_ =? 0); simpl; by rewrite ?names_cons, ?IH.
Qed.

Lemma length_assign_all r o : length (assign_all r o) = length o.
Proof.
  revert o; induction r as [|c r IH]; intros o; simpl; [done|].
  unfold assign_all in *. simpl. by rewrite IH, length_assign.
Qed.

Lemma row_to_sio_columns_app s cols1 cols2 filled o :
  row_to_sio_columns s (cols1 ++ cols2) filled o
  = '(filled', o') ← row_to_sio_columns s cols1 filled o;
    row_to_sio_columns s cols2 filled' o'.
Proof.
  revert filled o; induction cols1 as [|i cols1 IH]; intros filled o.
  - done.
  - cbn [app row_to_sio_columns].
    destruct (foreach _ _ _) as [[st o']|]; cbn [mbind option_bind]; [|done].
    apply IH.
Qed.

(** While the column index stays inside [filled], the flag read for a column
    is still 0 (only earlier columns have set theirs), so the scan of column
    [i] is [assign]. *)
Lemma row_to_sio_columns_in_bounds s n : forall k (filled : list Z) o,
  (k + n ≤ length filled)%nat ->
  (forall j, (k ≤ j < length filled)%nat -> filled !! j = Some 0) ->
  exists filled',
    row_to_sio_columns s (seq k n) filled o
    = Some (filled', assign_all (column_at s <$> seq k n) o)
    /\ length filled' = length filled.
Proof.
  induction n as [|n IH]; intros k filled o Hlen Hzero.
  - by exists filled.
  - cbn [seq row_to_sio_columns fmap list_fmap].
    destruct (foreach_in_bounds s k filled o) as (f1 & -> & Hl1 & Ho1).
    { apply Hzero. lia. }
    cbn [mbind option_bind snd].
    destruct (IH (S k) f1 (assign (column_at s k) o)) as (f2 & E2 & Hl2).
    { lia. }
    { intros j Hj. rewrite Ho1 by lia. apply Hzero. lia. }
    exists f2. split; [|congruence]. exact E2.
Qed.

Lemma columns_of_row (l : list column) k :
  (fun i => default no_column (l !! (i - k)%nat)) <$> seq k (length l) = l.
Proof.
  revert k; induction l as [|c l IH]; intros k; [done|].
  cbn [length seq fmap list_fmap]. rewrite Nat.sub_diag. cbn. f_equal.
  etrans; [|apply (IH (S k))]. apply list_fmap_ext.
  intros i j Hj. apply lookup_seq in Hj as [-> _].
  by replace (S k + i - k)%nat with (S (S k + i - S k)) by lia.
Qed.

Lemma column_at_row s :
  column_at s <$> seq 0 (sqlite3_column_count s) = row s.
Proof.
  etrans; [|apply (columns_of_row (row s) 0)].
  apply list_fmap_ext. intros i j _. unfold column_at. by rewrite Nat.sub_0_r.
Qed.

(** A row no wider than the record is marshalled column by column. *)
Lemma row_to_sio_in_bounds s o :
  (length (row s) ≤ length o)%nat ->
  row_to_sio s o = Some (assign_all (row s) o).
Proof.
  intros Hle. unfold row_to_sio.
  destruct (row_to_sio_columns_in_bounds s (sqlite3_column_count s) 0
              (replicate (length o) 0) o) as (f & -> & _).
  - rewrite length_replicate. unfold sqlite3_column_count. lia.
  - intros j Hj. rewrite length_replicate in Hj.
    apply lookup_replicate_2. lia.
  - cbn. by rewrite column_at_row.
Qed.

Lemma row_to_sio_empty_record s : row_to_sio s [] = Some [].
Proof.
  unfold row_to_sio. generalize (replicate (length (@nil member)) 0).
  generalize (seq 0 (sqlite3_column_count s)).
  intros cols; induction cols as [|i cols IH]; intros filled; [done|].
  cbn. apply IH.
Qed.

(** A row wider than a record that has fields reads [filled] past its end. *)
Lemma row_to_sio_out_of_bounds s o :
  o ≠ [] -> (length o < length (row s))%nat -> row_to_sio s o = None.
Proof.
  intros Ho Hlt. unfold row_to_sio, sqlite3_column_count.
  replace (length (row s))
    with (length o + S (length (row s) - S (length o)))%nat by lia.
  rewrite seq_app, row_to_sio_columns_app.
  destruct (row_to_sio_columns_in_bounds s (length o) 0
              (replicate (length o) 0) o) as (f & -> & Hf).
  - by rewrite length_replicate.
  - intros j Hj. rewrite length_replicate in Hj.
    apply lookup_replicate_2. lia.
  - cbn [mbind option_bind seq row_to_sio_columns].
    rewrite foreach_out_of_bounds; [done| |].
    + apply lookup_ge_None. rewrite Hf, length_replicate. lia.
    + intros E. apply (f_equal length) in E.
      rewrite length_assign_all in E. by destruct o.
Qed.

Lemma row_to_sio_marshal s o : row_to_sio s o = marshal (row s) o.
Proof.
  unfold marshal. destruct (decide _) as [Hle|Hgt].
  - by apply row_to_sio_in_bounds.
  - destruct (decide _) as [->|Hne].
    + apply row_to_sio_empty_record.
    + apply row_to_sio_out_of_bounds; [done|lia].
Qed.

Lemma assign_unmatched c o : col_name c ∉ names o -> assign c o = o.
Proof.
  induction o as [|m o IH]; intros Hc; simpl; [done|].
  rewrite names_cons, not_elem_of_cons in Hc. destruct Hc as [Hm Ho].
  destruct (Z.eqb_spec (strcmp (col_name c) (symbol_name m)) 0) as [E|E].
  - by apply strcmp_0 in E.
  - by rewrite IH.
Qed.

Lemma names_assign_all r o : names (assign_all r o) = names o.
Proof.
  revert o; induction r as [|c r IH]; intros o; [done|].
  unfold assign_all in *. simpl. by rewrite IH, names_assign.
Qed.

Lemma assign_all_app r1 r2 o :
  assign_all (r1 ++ r2) o = assign_all r2 (assign_all r1 o).
Proof. unfold assign_all. apply fold_left_app. Qed.

Lemma assign_all_unmatched pre c post o :
  col_name c ∉ names o ->
  assign_all (pre ++ c :: post) o = assign_all (pre ++ post) o.
Proof.
  intros Hc. rewrite !assign_all_app.
  change (assign_all (c :: post) ?x) with (assign_all post (assign c x)).
  rewrite assign_unmatched; [done|]. by rewrite names_assign_all.
Qed.

Lemma assign_other c o j m :
  o !! j = Some m -> symbol_name m ≠ col_name c -> assign c o !! j = Some m.
Proof.
  revert j; induction o as [|m' o IH]; intros j Hj Hm; [done|].
  simpl. destruct (Z.eqb_spec (strcmp (col_name c) (symbol_name m')) 0) as [E|E].
  - apply strcmp_0 in E. destruct j as [|j]; [|done].
    simpl in Hj. congruence.
  - destruct j as [|j]; [done|]. simpl in *. by apply IH.
Qed.

Lemma assign_all_other r o j m :
  o !! j = Some m -> symbol_name m ∉ col_name <$> r ->
  assign_all r o !! j = Some m.
Proof.
  revert o; induction r as [|c r IH]; intros o Hj Hm; [done|].
  rewrite fmap_cons, not_elem_of_cons in Hm. destruct Hm as [Hc Hr].
  change (assign_all (c :: r) o) with (assign_all r (assign c o)).
  apply IH; [|done]. by apply assign_other.
Qed.

(** ** Where the code and the procedure of the specification agree

    With pairwise distinct column names no column meets a field that an
    earlier column filled, and the code computes the specified matching. *)

Lemma spec_fill_assign c fo :
  col_name c ∉ filled_names fo ->
  snd <$> spec_fill c fo = assign c (snd <$> fo).
Proof.
  induction fo as [|[fl m] fo IH]; intros Hc; [done|].
  cbn [spec_fill assign fmap list_fmap snd]. rewrite strcmp_eqb.
  destruct fl; cbn [negb andb filled_names] in *.
  - apply not_elem_of_cons in Hc as [Hm Hfo].
    destruct (String.eqb_spec (col_name c) (symbol_name m)) as [E|E]; [done|].
    cbn. f_equal. by apply IH.
  - destruct (String.eqb (col_name c) (symbol_name m)); [done|].
    cbn. f_equal. by apply IH.
Qed.

Lemma filled_names_spec_fill c fo n :
  n ∈ filled_names (spec_fill c fo) -> n = col_name c ∨ n ∈ filled_names fo.
Proof.
  induction fo as [|[fl m] fo IH]; [by right|].
  cbn [spec_fill]. destruct fl; cbn [negb andb filled_names].
  - rewrite !elem_of_cons. intros [->|H]; [by right; left|].
    destruct (IH H); [by left|by right; right].
  - destruct (String.eqb_spec (col_name c) (symbol_name m)) as [E|E];
      cbn [filled_names].
    + rewrite elem_of_cons. intros [->|H]; [by left|by right].
    + apply IH.
Qed.

Lemma spec_fold_assign_all r : forall fo,
  NoDup (col_name <$> r) ->
  (forall c, c ∈ r -> col_name c ∉ filled_names fo) ->
  snd <$> fold_left (fun acc c => spec_fill c acc) r fo
  = assign_all r (snd <$> fo).
Proof.
  induction r as [|c r IH]; intros fo Hnd Hfo; [done|].
  rewrite fmap_cons in Hnd. apply NoDup_cons in Hnd as [Hc Hnd].
  cbn [fold_left]. change (assign_all (c :: r) ?x) with (assign_all r (assign c x)).
  rewrite <- spec_fill_assign by (apply Hfo; by left).
  apply IH; [done|]. intros c' Hc' Hin.
  apply filled_names_spec_fill in Hin as [E|Hin].
  - apply Hc. rewrite <- E. by apply list_elem_of_fmap_2.
  - apply (Hfo c'); [by right|done].
Qed.

Lemma filled_names_unfilled (o : sio) : filled_names (pair false <$> o) = [].
Proof. induction o as [|m o IH]; [done|]. exact IH. Qed.

Lemma row_to_sio_refines_spec s o :
  NoDup (col_name <$> row s) ->
  (length (row s) ≤ length o)%nat ->
  row_to_sio s o = Some (column_matching_spec (row s) o).
Proof.
  intros Hnd Hle. rewrite row_to_sio_in_bounds by done. f_equal.
  unfold column_matching_spec. rewrite spec_fold_assign_all; [|done|].
  - f_equal. rewrite <- list_fmap_compose. symmetry. apply list_fmap_id.
  - intros c _. rewrite filled_names_unfilled. apply not_elem_of_nil.
Qed.

(** ** The claims about column matching *)

(** C1 (the code departs from it).  Matching is by [strcmp], exact and
    case-sensitive, and the first field of the name takes the value; but the
    code indexes [filled] by the column, not by the field, so a field filled
    by an earlier column is written again.  For two columns named [a] with
    the values 1 and 2 the code leaves 2 in field [a], where the procedure of
    the specification keeps the 1 of the first column. *)
Theorem row_to_sio_writes_filled_field_again :
  row_to_sio (stmt_on_row row_a_a) record_ab
    = Some [Member "a" (v_int 2); Member "b" (v_int 7)]
  /\ column_matching_spec row_a_a record_ab
    = [Member "a" (v_int 1); Member "b" (v_int 7)].
Proof. split; reflexivity. Qed.

(** C2 (the code departs from it).  A column that matches no field is passed
    over as long as the row has no more columns than the record has fields;
    in a wider row the scan of the column past the last field reads [filled]
    outside its bounds, which is undefined behaviour. *)
Theorem row_to_sio_unmatched_column (s : sqlite3_stmt) (o : sio)
    (pre post : list column) (c : column) :
  row s = (pre ++ c :: post) ->
  col_name c ∉ names o ->
  ((length (row s) ≤ length o)%nat ->
     row_to_sio s o = Some (assign_all (pre ++ post) o))
  /\ (o ≠ [] -> (length o < length (row s))%nat -> row_to_sio s o = None).
Proof.
  intros Hrow Hc. split.
  - intros Hle. rewrite row_to_sio_in_bounds by done.
    by rewrite Hrow, assign_all_unmatched.
  - apply row_to_sio_out_of_bounds.
Qed.

Lemma row_to_sio_unmatched_column_witness :
  row_to_sio (stmt_on_row row_a_extra) record_a = None
  /\ row_to_sio (stmt_on_row row_extra_a) record_ab
     = Some [Member "a" (v_int 1); Member "b" (v_int 7)].
Proof.
  split.
  - apply (row_to_sio_unmatched_column (stmt_on_row row_a_extra) record_a
             [int_col "a" 1] [] (int_col "extra" 9)).
    + reflexivity.
    + refine (bool_decide_unpack _ _). vm_compute. exact I.
    + discriminate.
    + simpl. lia.
  - apply (row_to_sio_unmatched_column (stmt_on_row row_extra_a) record_ab
             [] [int_col "a" 1] (int_col "extra" 9)).
    + reflexivity.
    + refine (bool_decide_unpack _ _). vm_compute. exact I.
    + simpl. lia.
Defined.

Lemma row_to_sio_unmatched_field (s : sqlite3_stmt) (o o' : sio)
    (j : nat) (m : member) :
  row_to_sio s o = Some o' ->
  o !! j = Some m ->
  symbol_name m ∉ col_name <$> row s ->
  o' !! j = Some m.
Proof.
  rewrite row_to_sio_marshal. unfold marshal. intros Hrun Hj Hm.
  destruct (decide _).
  - injection Hrun as <-. by apply assign_all_other.
  - destruct (decide _) as [->|]; [done|discriminate].
Qed.

(** ** Running the engine calls *)

Lemma bindM_returned {A B} (m : M A) (k : A -> M B) w a w' :
  m w = (Returned a, w') -> bindM m k w = k a w'.
Proof. unfold bindM. by intros ->. Qed.

Lemma bindM_thrown {A B} (m : M A) (k : A -> M B) w e w' :
  m w = (Thrown e, w') -> bindM m k w = (Thrown e, w').
Proof. unfold bindM. by intros ->. Qed.

Lemma bindM_undefined {A B} (m : M A) (k : A -> M B) w w' :
  m w = (Undefined, w') -> bindM m k w = (Undefined, w').
Proof. unfold bindM. by intros ->. Qed.

Lemma sqlite3_step_run p w s :
  statements w !! p = Some s ->
  sqlite3_step p w
  = (Returned (step_stmt s).1,
     World (eng w) (<[p:=(step_stmt s).2]> (statements w)) (use_count w)
           (calls w ++ [call_step p])).
Proof.
  intros Hs. unfold sqlite3_step, bindM, log, get, set_statements, ret. cbn.
  rewrite Hs. by destruct (step_stmt s).
Qed.

Lemma sqlite_statement_row_to_sio_run this o w s :
  statements w !! stmt_ this = Some s ->
  sqlite_statement_row_to_sio this o w
  = (match row_to_sio s o with Some o' => Returned o' | None => Undefined end,
     World (eng w) (statements w) (use_count w)
           (calls w ++ row_to_sio_calls (stmt_ this) s o)).
Proof.
  intros Hs. unfold sqlite_statement_row_to_sio, bindM, get, log_all.
  cbn [fst snd]. rewrite Hs. by destruct (row_to_sio s o).
Qed.

Lemma row_to_sio_same_row s s' o :
  row s = row s' -> row_to_sio s o = row_to_sio s' o.
Proof. intros E. by rewrite !row_to_sio_marshal, E. Qed.

(** The calls of [row_to_sio] are calls on the columns of its statement. *)
Lemma read_column_calls_columns p i v :
  Forall (is_column_call p) (read_column_calls p i v).
Proof. destruct v; repeat constructor. Qed.

Lemma foreach_calls_columns p s i cname o : forall st,
  Forall (is_column_call p)
    (foreach_calls (row_to_sio_lambda s i cname)
       (row_to_sio_lambda_calls p i cname) st o).
Proof.
  induction o as [|m o IH]; intros st; cbn [foreach_calls]; [constructor|].
  apply Forall_app. split.
  - unfold row_to_sio_lambda_calls. destruct st as [[] filled]; [constructor|].
    destruct (filled !! i) as [fi|]; [|constructor].
    destruct (negb _); [constructor|].
    destruct (_ =? 0); [apply read_column_calls_columns|constructor].
  - destruct (row_to_sio_lambda s i cname st m) as [[st1 m']|];
      [apply IH|constructor].
Qed.

Lemma row_to_sio_columns_calls_columns p s cols : forall filled o,
  Forall (is_column_call p) (row_to_sio_columns_calls p s cols filled o).
Proof.
  induction cols as [|i cols IH]; intros filled o;
    cbn [row_to_sio_columns_calls]; [constructor|].
  constructor; [done|]. apply Forall_app. split.
  - apply foreach_calls_columns.
  - destruct (foreach _ _ o) as [[st o']|]; [apply IH|constructor].
Qed.

Lemma row_to_sio_calls_columns p s o :
  Forall (is_column_call p) (row_to_sio_calls p s o).
Proof.
  unfold row_to_sio_calls. constructor; [done|].
  apply row_to_sio_columns_calls_columns.
Qed.

Lemma steps_made_app l1 l2 :
  steps_made (l1 ++ l2) = (steps_made l1 + steps_made l2)%nat.
Proof. unfold steps_made. by rewrite List.filter_app, length_app. Qed.

Lemma steps_made_columns p l : Forall (is_column_call p) l -> steps_made l = 0%nat.
Proof.
  unfold steps_made. induction 1 as [|c l Hc _ IH]; [done|].
  cbn. by destruct c.
Qed.

(** ** [operator>>] *)

Lemma operator_shr_run this o w s :
  statements w !! stmt_ this = Some s ->
  operator_shr this o w
  = (if (step_stmt s).1 =? SQLITE_ROW then Undefined
     else Thrown (runtime_error "sqlite3_step did not return SQLITE_ROW."),
     World (eng w) (<[stmt_ this:=(step_stmt s).2]> (statements w))
           (use_count w)
           (calls w ++ call_step (stmt_ this)
              :: (if (step_stmt s).1 =? SQLITE_ROW
                  then row_to_sio_calls (stmt_ this) (step_stmt s).2 o
                  else []))).
Proof.
  intros Hs. unfold operator_shr.
  rewrite (bindM_returned _ _ _ _ _ (sqlite3_step_run _ _ _ Hs)).
  destruct (_ =? SQLITE_ROW); cbn [negb]; [|done].
  unfold bindM.
  rewrite (sqlite_statement_row_to_sio_run this o _ (step_stmt s).2)
    by (cbn; apply lookup_insert_eq).
  cbn [calls eng statements use_count]. rewrite <- app_assoc.
  by destruct (row_to_sio _ o).
Qed.

(** C7 (the code departs from it).  [operator>>] makes one [sqlite3_step]
    call and, when the step answers anything but [SQLITE_ROW], throws.  When
    the step answers [SQLITE_ROW] the cursor is at row-available and
    [row_to_sio] makes its column calls, but then the function, declared
    [int], reaches its closing brace without a [return]: the call has no
    defined outcome, where the claim has it succeed. *)
Theorem operator_shr_fetches_one (this : sqlite_statement) (o : sio)
    (w : world) (s : sqlite3_stmt) :
  statements w !! stmt_ this = Some s ->
  let code := (step_stmt s).1 in
  let s' := (step_stmt s).2 in
  let r := operator_shr this o w in
  statements r.2 !! stmt_ this = Some s'
  /\ (exists reads,
        calls r.2 = calls w ++ call_step (stmt_ this) :: reads
        /\ Forall (is_column_call (stmt_ this)) reads)
  /\ (code ≠ SQLITE_ROW ->
        r.1 = Thrown (runtime_error "sqlite3_step did not return SQLITE_ROW.")
        /\ calls r.2 = calls w ++ [call_step (stmt_ this)])
  /\ (code = SQLITE_ROW ->
        cursor s' = row_available
        /\ calls r.2
           = calls w ++ call_step (stmt_ this)
               :: row_to_sio_calls (stmt_ this) s' o
        /\ r.1 = Undefined).
Proof.
  intros Hs. cbn zeta. rewrite (operator_shr_run _ _ _ _ Hs).
  cbn [fst snd calls statements]. split_and!.
  - apply lookup_insert_eq.
  - eexists. split; [reflexivity|].
    destruct (_ =? SQLITE_ROW); [apply row_to_sio_calls_columns|constructor].
  - intros Hc. apply Z.eqb_neq in Hc. by rewrite Hc.
  - intros Hc. rewrite Hc. split_and!; [|done..].
    unfold step_stmt in *. destruct (pending s) as [|r rest]; cbn in *.
    + discriminate.
    + unfold cursor_of_code. by rewrite Hc.
Qed.

Lemma operator_shr_fetches_one_witness :
  (operator_shr (SqliteStatement 2 2) record_ab
     (world_with 2 (stmt_with_rows two_rows))).1 = Undefined
  /\ (operator_shr (SqliteStatement 2 2) record_a
        (world_with 2 stmt_empty)).1
     = Thrown (runtime_error "sqlite3_step did not return SQLITE_ROW.").
Proof.
  split.
  - pose proof (operator_shr_fetches_one (SqliteStatement 2 2) record_ab
                  (world_with 2 (stmt_with_rows two_rows))
                  (stmt_with_rows two_rows) eq_refl) as (_ & _ & _ & H).
    by destruct (H eq_refl) as (_ & _ & ->).
  - pose proof (operator_shr_fetches_one (SqliteStatement 2 2) record_a
                  (world_with 2 stmt_empty) stmt_empty eq_refl)
      as (_ & _ & H & _).
    by destruct (H ltac:(discriminate)) as [-> _].
Defined.

(** C9 (the code departs from it).  [operator>>] is declared [int] and no
    path of it has a [return] statement, so it returns a value in no world:
    a call throws, or (whenever the step yields a row) flows off the end of
    the function, which is undefined behaviour, where the claim has the call
    complete with an unspecified value. *)
Theorem operator_shr_never_returns (this : sqlite_statement) (o : sio)
    (w : world) :
  (forall x, (operator_shr this o w).1 ≠ Returned x)
  /\ (forall s,
        statements w !! stmt_ this = Some s ->
        (step_stmt s).1 = SQLITE_ROW ->
        (operator_shr this o w).1 = Undefined).
Proof.
  split.
  - intros x. unfold operator_shr, bindM.
    destruct (sqlite3_step _ w) as [[code| |] w1]; [|done..].
    destruct (negb _); [done|].
    by destruct (sqlite_statement_row_to_sio _ _ w1) as [[o1| |] w2].
  - intros s Hs Hc. rewrite (operator_shr_run _ _ _ _ Hs). by rewrite Hc.
Qed.

Lemma operator_shr_never_returns_witness :
  (operator_shr (SqliteStatement 2 2) record_ab
     (world_with 2 (stmt_with_rows two_rows))).1 = Undefined.
Proof.
  apply (proj2 (operator_shr_never_returns (SqliteStatement 2 2) record_ab
                  (world_with 2 (stmt_with_rows two_rows)))
           (stmt_with_rows two_rows)); reflexivity.
Defined.

(** On a statement whose step yields a row that [row_to_sio] marshals without
    fault, the single-row fetch does not return a value, unspecified or
    other; its behaviour is undefined. *)
Lemma operator_shr_row_has_no_value :
  (step_stmt (stmt_with_rows two_rows)).1 = SQLITE_ROW
  /\ row_to_sio (step_stmt (stmt_with_rows two_rows)).2 record_ab
     = Some [Member "a" (v_int 1); Member "b" (v_int 10)]
  /\ (operator_shr (SqliteStatement 2 2) record_ab
        (world_with 2 (stmt_with_rows two_rows))).1 = Undefined.
Proof. split_and!; reflexivity. Qed.

(** ** [operator|] *)

Lemma fits_marshalled T0 rows :
  Forall (fits T0) rows -> exists os, Forall2 (marshalled T0) rows os.
Proof.
  induction 1 as [|r rows Hr _ [os IH]]; [by exists []|].
  exists (assign_all r T0 :: os). constructor; [|done].
  unfold marshalled. by rewrite row_to_sio_in_bounds.
Qed.

Section operator_pipe.
Context {A : Type} (this : sqlite_statement) (T0 : sio).

(** The loop over the first rows of a result, each marshalled without fault,
    with a visitor that returns: it arrives, after one step per row, at the
    loop on what follows. *)
Lemma operator_pipe_loop_prefix (g : sio -> A -> A) rows os :
  Forall2 (marshalled T0) rows os ->
  forall w s acc bound rest,
  statements w !! stmt_ this = Some s ->
  pending s = (StepResult SQLITE_ROW <$> rows) ++ rest ->
  exists w' s' made,
    statements w' !! stmt_ this = Some s'
    /\ pending s' = rest
    /\ calls w' = calls w ++ made
    /\ steps_made made = length rows
    /\ operator_pipe_loop (length rows + bound) this T0 (returns g) acc w
       = operator_pipe_loop bound this T0 (returns g)
           (fold_left (fun a o => g o a) os acc) w'.
Proof.
  induction 1 as [|r o rows os Hro Hos IH]; intros w s acc bound rest Hs Hp.
  - exists w, s, []. by rewrite app_nil_r.
  - cbn [length Nat.add operator_pipe_loop].
    rewrite (bindM_returned _ _ _ _ _ (sqlite3_step_run _ _ _ Hs)).
    cbn in Hp. unfold step_stmt. rewrite Hp. cbn [fst snd step_code step_row].
    change (SQLITE_ROW =? SQLITE_ROW) with true. cbn match.
    set (s1 := Stmt _ r _ _). set (w1 := World _ _ _ _).
    assert (statements w1 !! stmt_ this = Some s1) as Hs1
      by apply lookup_insert_eq.
    assert (row_to_sio s1 T0 = Some o) as Ho.
    { by rewrite (row_to_sio_same_row s1 (stmt_on_row r)). }
    pose proof (sqlite_statement_row_to_sio_run this T0 w1 s1 Hs1) as Hrun.
    rewrite Ho in Hrun. rewrite (bindM_returned _ _ _ _ _ Hrun).
    unfold of_outcome, returns at 1. unfold bindM at 1.
    set (w2 := World _ _ _ _).
    destruct (IH w2 s1 (g o acc) bound rest Hs1 eq_refl)
      as (w' & s' & made & Hs' & Hp' & Hc & Hn & Hloop).
    exists w', s',
      (call_step (stmt_ this) :: row_to_sio_calls (stmt_ this) s1 T0 ++ made).
    split_and!; [done..| | |done].
    + rewrite Hc. subst w2 w1. cbn [calls]. by rewrite <- !app_assoc.
    + change (call_step ?p :: ?l ++ made) with ([call_step p] ++ l ++ made).
      rewrite !steps_made_app, Hn.
      by rewrite (steps_made_columns _ _ (row_to_sio_calls_columns _ _ _)).
Qed.

(** The step that does not answer [SQLITE_ROW] ends the loop. *)
Lemma operator_pipe_loop_stop (f : sio -> A -> outcome A) w s acc bound :
  statements w !! stmt_ this = Some s ->
  match pending s with [] => True | r :: _ => step_code r ≠ SQLITE_ROW end ->
  exists w' s',
    operator_pipe_loop (S bound) this T0 f acc w = (Returned acc, w')
    /\ statements w' !! stmt_ this = Some s'
    /\ pending s' = tl (pending s)
    /\ cursor s' = match pending s with
                   | [] => exhausted
                   | r :: _ => cursor_of_code (step_code r)
                   end
    /\ calls w' = calls w ++ [call_step (stmt_ this)].
Proof.
  intros Hs Htail. cbn [operator_pipe_loop].
  rewrite (bindM_returned _ _ _ _ _ (sqlite3_step_run _ _ _ Hs)).
  unfold step_stmt. destruct (pending s) as [|t tail]; cbn [fst snd].
  - eexists _, _. split; [reflexivity|]. split; [apply lookup_insert_eq|]. done.
  - apply Z.eqb_neq in Htail. rewrite Htail.
    eexists _, _. split; [reflexivity|]. split; [apply lookup_insert_eq|]. done.
Qed.

(** A row that [row_to_sio] cannot marshal leaves the loop without outcome. *)
Lemma operator_pipe_loop_fault (f : sio -> A -> outcome A) w s acc bound r rest :
  statements w !! stmt_ this = Some s ->
  pending s = StepResult SQLITE_ROW r :: rest ->
  row_to_sio (stmt_on_row r) T0 = None ->
  (operator_pipe_loop (S bound) this T0 f acc w).1 = Undefined.
Proof.
  intros Hs Hp Hr. cbn [operator_pipe_loop].
  rewrite (bindM_returned _ _ _ _ _ (sqlite3_step_run _ _ _ Hs)).
  unfold step_stmt. rewrite Hp. cbn [fst snd step_code step_row].
  change (SQLITE_ROW =? SQLITE_ROW) with true. cbn match.
  set (s1 := Stmt _ r _ _). set (w1 := World _ _ _ _).
  assert (statements w1 !! stmt_ this = Some s1) as Hs1
    by apply lookup_insert_eq.
  pose proof (sqlite_statement_row_to_sio_run this T0 w1 s1 Hs1) as Hrun.
  rewrite (row_to_sio_same_row s1 (stmt_on_row r)), Hr in Hrun by done.
  by rewrite (bindM_undefined _ _ _ _ Hrun).
Qed.

Lemma operator_pipe_rows (g : sio -> A -> A) acc w s rows os tail :
  statements w !! stmt_ this = Some s ->
  pending s = (StepResult SQLITE_ROW <$> rows) ++ tail ->
  match tail with [] => True | r :: _ => step_code r ≠ SQLITE_ROW end ->
  Forall2 (marshalled T0) rows os ->
  exists w' s' made,
    operator_pipe this T0 (returns g) acc w
    = (Returned (fold_left (fun a o => g o a) os acc), w')
    /\ calls w' = calls w ++ made
    /\ steps_made made = S (length rows)
    /\ statements w' !! stmt_ this = Some s'
    /\ pending s' = tl tail
    /\ cursor s' = match tail with
                   | [] => exhausted
                   | r :: _ => cursor_of_code (step_code r)
                   end.
Proof.
  intros Hs Hp Htail Hos.
  unfold operator_pipe, bindM, get, pending_steps. cbn [fst snd]. rewrite Hs.
  rewrite Hp, length_app, length_fmap.
  replace (S (length rows + length tail))
    with (length rows + S (length tail))%nat by lia.
  destruct (operator_pipe_loop_prefix g rows os Hos w s acc (S (length tail))
              tail Hs Hp) as (w1 & s1 & made & Hs1 & Hp1 & Hc1 & Hn1 & ->).
  destruct (operator_pipe_loop_stop (returns g) w1 s1
              (fold_left (fun a o => g o a) os acc) (length tail) Hs1)
    as (w' & s' & -> & Hs' & Hp' & Hcur & Hc').
  { by rewrite Hp1. }
  exists w', s', (made ++ [call_step (stmt_ this)]).
  rewrite Hp1 in Hp', Hcur. split_and!; try done.
  - by rewrite Hc', Hc1, <- app_assoc.
  - rewrite steps_made_app, Hn1. cbn. lia.
Qed.

Lemma operator_pipe_fault (g : sio -> A -> A) acc w s pre os r rest :
  statements w !! stmt_ this = Some s ->
  pending s = (StepResult SQLITE_ROW <$> pre) ++ StepResult SQLITE_ROW r :: rest ->
  Forall2 (marshalled T0) pre os ->
  row_to_sio (stmt_on_row r) T0 = None ->
  (operator_pipe this T0 (returns g) acc w).1 = Undefined.
Proof.
  intros Hs Hp Hos Hr.
  unfold operator_pipe, bindM, get, pending_steps. cbn [fst snd]. rewrite Hs.
  rewrite Hp, length_app, length_fmap. cbn [length].
  replace (S (length pre + S (length rest)))
    with (length pre + S (S (length rest)))%nat by lia.
  destruct (operator_pipe_loop_prefix g pre os Hos w s acc
              (S (S (length rest))) _ Hs Hp)
    as (w1 & s1 & made & Hs1 & Hp1 & _ & _ & ->).
  by eapply operator_pipe_loop_fault.
Qed.
End operator_pipe.

Lemma fold_left_snoc {B} (os : list B) (v : list B) :
  fold_left (fun a o => a ++ [o]) os v = v ++ os.
Proof.
  revert v; induction os as [|o os IH]; intros v; simpl.
  - by rewrite app_nil_r.
  - by rewrite IH, <- app_assoc.
Qed.

(** C6 (the code departs from it).  Over a statement whose result is [rows]
    (then done), when no row is wider than the record, [operator|] returns
    normally after handing a visitor that returns one record per row, in
    result order, every record marshalled from the default-constructed [T0]
    and not from the record of the row before; the engine is stepped once
    per row and once more, and the cursor ends exhausted.  But a row wider
    than a record that has fields runs [row_to_sio] out of the bounds of
    [filled] (the defect of C2): from that row on the call has no defined
    outcome and the visitor is not handed the rows that remain. *)
Theorem operator_pipe_over_rows {A : Type} (this : sqlite_statement)
    (T0 : sio) (g : sio -> A -> A) (acc : A) (w : world) (s : sqlite3_stmt)
    (rows : list (list column)) (tail : list step_result) :
  statements w !! stmt_ this = Some s ->
  pending s = (StepResult SQLITE_ROW <$> rows) ++ tail ->
  match tail with [] => True | r :: _ => step_code r = SQLITE_DONE end ->
  (Forall (fits T0) rows ->
     exists os w' made,
       Forall2 (marshalled T0) rows os
       /\ operator_pipe this T0 (returns g) acc w
          = (Returned (fold_left (fun a o => g o a) os acc), w')
       /\ (operator_pipe this T0
             (returns (fun o visited => visited ++ [o])) [] w).1
          = Returned os
       /\ calls w' = calls w ++ made
       /\ steps_made made = S (length rows)
       /\ cursor <$> statements w' !! stmt_ this = Some exhausted)
  /\ (forall pre r post,
        rows = pre ++ r :: post ->
        Forall (fits T0) pre ->
        T0 ≠ [] ->
        (length T0 < length r)%nat ->
        (operator_pipe this T0 (returns g) acc w).1 = Undefined).
Proof.
  intros Hs Hp Htail.
  assert (match tail with [] => True | r :: _ => step_code r ≠ SQLITE_ROW end)
    as Htail'.
  { destruct tail as [|r tail]; [done|]. by rewrite Htail. }
  split.
  - intros Hfit. destruct (fits_marshalled T0 rows Hfit) as [os Hos].
    destruct (operator_pipe_rows this T0 g acc w s rows os tail Hs Hp Htail' Hos)
      as (w' & s' & made & Hrun & Hc & Hn & Hs' & _ & Hcur).
    exists os, w', made. split_and!; try done.
    + destruct (operator_pipe_rows this T0 (fun o visited => visited ++ [o])
                  [] w s rows os tail Hs Hp Htail' Hos) as (w2 & _ & _ & -> & _).
      cbn. by rewrite fold_left_snoc.
    + rewrite Hs'. cbn. f_equal. rewrite Hcur.
      destruct tail as [|r tail]; [done|].
      unfold cursor_of_code. by rewrite Htail.
  - intros pre r post -> Hfit Hne Hwide.
    destruct (fits_marshalled T0 pre Hfit) as [os Hos].
    rewrite fmap_app, fmap_cons, <- app_assoc in Hp.
    eapply (operator_pipe_fault this T0 g acc w s pre os r); [done..|].
    by apply row_to_sio_out_of_bounds.
Qed.

Lemma operator_pipe_over_rows_witness :
  (operator_pipe (SqliteStatement 2 2) record_a (returns (fun o n => S n))
     0%nat (world_with 2 (stmt_with_rows [row_a_extra]))).1 = Undefined
  /\ exists os,
       Forall2 (marshalled record_ab) two_rows os
       /\ (operator_pipe (SqliteStatement 2 2) record_ab
             (returns (fun o visited => visited ++ [o])) []
             (world_with 2 (stmt_with_rows two_rows))).1
          = Returned os.
Proof.
  split.
  - apply (proj2 (operator_pipe_over_rows (SqliteStatement 2 2) record_a
             (fun o n => S n) 0%nat
             (world_with 2 (stmt_with_rows [row_a_extra]))
             (stmt_with_rows [row_a_extra]) [row_a_extra] []
             eq_refl eq_refl I) [] row_a_extra []).
    + reflexivity.
    + constructor.
    + discriminate.
    + simpl. lia.
  - destruct (proj1 (operator_pipe_over_rows (SqliteStatement 2 2) record_ab
             (fun o n => S n) 0%nat
             (world_with 2 (stmt_with_rows two_rows))
             (stmt_with_rows two_rows) two_rows [] eq_refl eq_refl I))
      as (os & _ & _ & Hos & _ & Hv & _).
    + repeat constructor; unfold fits; simpl; lia.
    + by exists os.
Defined.

(** ** The log only grows *)

Lemma extends_ret {A} (a : A) : extends_log (ret a).
Proof. intros w. exists []. cbn. by rewrite app_nil_r. Qed.

Lemma extends_throw {A} e : extends_log (@throw A e).
Proof. intros w. exists []. cbn. by rewrite app_nil_r. Qed.

Lemma extends_undefined {A} : extends_log (@undefined A).
Proof. intros w. exists []. cbn. by rewrite app_nil_r. Qed.

Lemma extends_get : extends_log get.
Proof. intros w. exists []. cbn. by rewrite app_nil_r. Qed.

Lemma extends_log_log c : extends_log (log c).
Proof. intros w. by exists [c]. Qed.

Lemma extends_set_statements g : extends_log (set_statements g).
Proof. intros w. exists []. cbn. by rewrite app_nil_r. Qed.

Lemma extends_set_use_count g : extends_log (set_use_count g).
Proof. intros w. exists []. cbn. by rewrite app_nil_r. Qed.

Lemma extends_bindM {A B} (m : M A) (k : A -> M B) :
  extends_log m -> (forall a, extends_log (k a)) -> extends_log (bindM m k).
Proof.
  intros Hm Hk w. unfold bindM. destruct (Hm w) as [r1 H1].
  destruct (m w) as [[a| |] w1]; cbn in *; [|by exists r1..].
  destruct (Hk a w1) as [r2 H2]. exists (r1 ++ r2).
  by rewrite H2, H1, app_assoc.
Qed.

Create HintDb extends.
#[local] Hint Resolve extends_ret extends_throw extends_undefined extends_get
  extends_log_log extends_set_statements extends_set_use_count : extends.

Ltac extends_step :=
  match goal with
  | |- forall _, _ => intro
  | |- extends_log (bindM _ _) => apply extends_bindM
  | |- extends_log (match ?x with _ => _ end) => destruct x
  | |- extends_log _ => solve [auto with extends]
  end.

Lemma extends_errstr code : extends_log (errstr code).
Proof. unfold errstr. repeat extends_step. Qed.

Lemma extends_sqlite3_bind stmt pos b : extends_log (sqlite3_bind stmt pos b).
Proof. unfold sqlite3_bind. repeat extends_step. Qed.

Lemma extends_bind stmt pos a : extends_log (bind stmt pos a).
Proof.
  destruct a; cbn; unfold sqlite3_bind_double, sqlite3_bind_int,
    sqlite3_bind_text; apply extends_sqlite3_bind.
Qed.

#[local] Hint Resolve extends_errstr extends_bind : extends.

Lemma extends_bind_args stmt args : forall i, extends_log (bind_args stmt i args).
Proof.
  induction args as [|a args IH]; intros i; cbn [bind_args].
  - auto with extends.
  - apply extends_bindM; [auto with extends|]. intros err.
    destruct (negb _); [|apply IH]. repeat extends_step.
Qed.

Lemma extends_sqlite_statement_new s : extends_log (sqlite_statement_new s).
Proof. unfold sqlite_statement_new, shared_ptr_new. repeat extends_step. Qed.

#[local] Hint Resolve extends_bind_args extends_sqlite_statement_new : extends.

(** ** [sqlite_database::operator()] *)

Lemma sqlite3_prepare_v2_run db zSql nByte w :
  sqlite3_prepare_v2 db zSql nByte w
  = let '(err, p, obj) := prepare_answer (eng w) db zSql nByte in
    (Returned (err, p),
     World (eng w)
           (if err =? SQLITE_OK then <[p:=obj]> (statements w)
            else statements w)
           (use_count w) (calls w ++ [call_prepare_v2 db zSql nByte])).
Proof.
  unfold sqlite3_prepare_v2, bindM, log, get, set_statements, ret. cbn.
  destruct (prepare_answer _ _ _ _) as [[err p] obj].
  by destruct (err =? SQLITE_OK).
Qed.

Lemma bind_run stmt pos a w :
  bind stmt pos a w
  = (Returned (match statements w !! stmt with
               | Some s => bind_code s pos (bound_of a)
               | None => SQLITE_MISUSE
               end),
     World (eng w) (statements w) (use_count w)
           (calls w ++ [call_bind stmt pos (bound_of a)])).
Proof. by destruct a. Qed.

Lemma bind_args_accepted p obj args : forall i w,
  statements w !! p = Some obj ->
  binds_accepted obj i args ->
  bind_args p i args w
  = (Returned (i + Z.of_nat (length args)),
     World (eng w) (statements w) (use_count w)
           (calls w ++ bind_calls p i args)).
Proof.
  induction args as [|a args IH]; intros i w Hp Hok; cbn [bind_args bind_calls].
  - unfold ret. rewrite app_nil_r, Z.add_0_r. by destruct w.
  - rewrite (bindM_returned _ _ _ _ _ (bind_run _ _ _ _)). rewrite Hp.
    pose proof (Hok 0%nat a eq_refl) as H0. rewrite Z.add_0_r in H0.
    rewrite H0. cbn [negb Z.eqb SQLITE_OK].
    rewrite IH; cbn [statements eng use_count calls]; [| done |].
    + replace (i + 1 + Z.of_nat (length args))
        with (i + Z.of_nat (length (a :: args))) by (cbn [length]; lia).
      by rewrite <- app_assoc.
    + intros k a' Hk. specialize (Hok (S k) a' Hk).
      by replace (i + 1 + Z.of_nat k) with (i + Z.of_nat (S k)) by lia.
Qed.

Lemma bind_args_rejected p obj pre a post : forall i w err,
  statements w !! p = Some obj ->
  binds_accepted obj i pre ->
  bind_code obj (i + Z.of_nat (length pre)) (bound_of a) = err ->
  err ≠ SQLITE_OK ->
  bind_args p i (pre ++ a :: post) w
  = (Thrown (runtime_error
               ("Sqlite error during binding: " +:+ sqlite3_errstr (eng w) err)),
     World (eng w) (statements w) (use_count w)
           (calls w ++ bind_calls p i (pre ++ [a]))).
Proof.
  induction pre as [|a' pre IH]; intros i w err Hp Hok Ha Herr;
    cbn [app bind_args].
  - rewrite (bindM_returned _ _ _ _ _ (bind_run _ _ _ _)). rewrite Hp.
    cbn [length] in Ha. rewrite Z.add_0_r in Ha. rewrite Ha.
    apply Z.eqb_neq in Herr. rewrite Herr. done.
  - rewrite (bindM_returned _ _ _ _ _ (bind_run _ _ _ _)). rewrite Hp.
    pose proof (Hok 0%nat a' eq_refl) as H0. rewrite Z.add_0_r in H0.
    rewrite H0. cbn [negb Z.eqb SQLITE_OK].
    rewrite (IH (i + 1) _ err); cbn [statements eng use_count calls]; try done.
    + by rewrite <- app_assoc.
    + intros k a'' Hk. specialize (Hok (S k) a'' Hk).
      by replace (i + 1 + Z.of_nat k) with (i + Z.of_nat (S k)) by lia.
    + rewrite <- Ha. f_equal. cbn [length]. lia.
Qed.

(** C10.  A default-constructed database holds the null handle, and
    [operator()] on it starts by calling [sqlite3_prepare_v2] with that
    handle, whatever the engine, the statement and the arguments: nothing in
    the layer checks that [connect] has succeeded. *)
Theorem operator_call_unconnected (req : string) (args : list bind_arg)
    (w : world) :
  db_ sqlite_database_new = nullptr
  /\ exists rest,
       calls (operator_call sqlite_database_new req args w).2
       = calls w
         ++ call_prepare_v2 nullptr req (size_as_int req) :: rest.
Proof.
  split; [done|]. unfold operator_call.
  set (k := fun x : Z * Z => let '(err, stmt) := x in _).
  assert (forall x, extends_log (k x)) as Hk.
  { intros [err stmt]. subst k. cbn beta iota.
    destruct (negb _); repeat extends_step. }
  pose proof (sqlite3_prepare_v2_run (db_ sqlite_database_new) req
                (size_as_int req) w) as Hrun.
  destruct (prepare_answer _ _ _ _) as [[err p] obj].
  rewrite (bindM_returned _ _ _ _ _ Hrun).
  destruct (Hk (err, p) (World (eng w)
     (if err =? SQLITE_OK then <[p:=obj]> (statements w) else statements w)
     (use_count w)
     (calls w ++ [call_prepare_v2 (db_ sqlite_database_new) req
                    (size_as_int req)]))) as [rest ->].
  exists rest. cbn [calls]. by rewrite <- app_assoc.
Qed.

Lemma finalize_not_in_bind_calls p q args : forall i,
  call_finalize q ∉ bind_calls p i args.
Proof.
  induction args as [|a args IH]; intros i; cbn [bind_calls].
  - apply not_elem_of_nil.
  - apply not_elem_of_cons. split; [done|apply IH].
Qed.

Lemma operator_call_prepared this req args w p obj :
  prepare_answer (eng w) (db_ this) req (size_as_int req)
    = (SQLITE_OK, p, obj) ->
  operator_call this req args w
  = bindM (bind_args p 1 args) (fun _ => sqlite_statement_new p)
      (World (eng w) (<[p:=obj]> (statements w)) (use_count w)
         (calls w ++ [call_prepare_v2 (db_ this) req
                        (size_as_int req)])).
Proof.
  intros Hprep. unfold operator_call.
  pose proof (sqlite3_prepare_v2_run (db_ this) req
                (size_as_int req) w) as Hrun.
  rewrite Hprep in Hrun. by rewrite (bindM_returned _ _ _ _ _ Hrun).
Qed.

(** C4 (the code departs from it).  When the statement is prepared and the
    engine rejects a bind, [operator()] throws the binding error with the
    engine's text, but the handle is a raw pointer at that point: the calls
    made are the prepare and the binds, [sqlite3_finalize] is not among them,
    the statement stays prepared in the engine and no shared pointer owns
    it, so nothing will release it. *)
Theorem operator_call_rejected_bind_leaks (this : sqlite_database)
    (req : string) (pre post : list bind_arg) (a : bind_arg) (w : world)
    (p : ptr) (obj : sqlite3_stmt) (err : Z) :
  prepare_answer (eng w) (db_ this) req (size_as_int req)
    = (SQLITE_OK, p, obj) ->
  binds_accepted obj 1 pre ->
  bind_code obj (1 + Z.of_nat (length pre)) (bound_of a) = err ->
  err ≠ SQLITE_OK ->
  let r := operator_call this req (pre ++ a :: post) w in
  let made := call_prepare_v2 (db_ this) req (size_as_int req)
              :: bind_calls p 1 (pre ++ [a]) in
  r.1 = Thrown (runtime_error
                  ("Sqlite error during binding: " +:+ sqlite3_errstr (eng w) err))
  /\ calls r.2 = calls w ++ made
  /\ (call_finalize p ∉ made)
  /\ statements r.2 !! p = Some obj
  /\ use_count r.2 = use_count w.
Proof.
  intros Hprep Hok Ha Herr. cbn zeta.
  rewrite (operator_call_prepared _ _ _ _ _ _ Hprep).
  erewrite bindM_thrown; cycle 1.
  { eapply (bind_args_rejected p obj pre a post 1); try done.
    cbn [statements]. apply lookup_insert_eq. }
  cbn [fst snd calls statements use_count eng]. split_and!.
  - done.
  - by rewrite <- app_assoc.
  - apply not_elem_of_cons. split; [done|apply finalize_not_in_bind_calls].
  - apply lookup_insert_eq.
  - done.
Qed.

Lemma operator_call_rejected_bind_leaks_witness :
  let r := operator_call connected_db "SELECT ?" [arg_int 1; arg_int 2]
             fresh_world in
  r.1 = Thrown (runtime_error
                  "Sqlite error during binding: column index out of range")
  /\ statements r.2 !! 2 = Some one_placeholder
  /\ use_count r.2 = ∅.
Proof.
  destruct (operator_call_rejected_bind_leaks connected_db "SELECT ?"
              [arg_int 1] [] (arg_int 2) fresh_world 2 one_placeholder
              SQLITE_RANGE) as (H1 & _ & _ & H2 & H3).
  - reflexivity.
  - intros [|k] a' Hk; [|destruct k; discriminate].
    injection Hk as <-. reflexivity.
  - reflexivity.
  - discriminate.
  - cbn zeta. split_and!; [exact H1|exact H2|exact H3].
Defined.

(** The path that C4 misses: when every bind is accepted the handle goes to a
    [sqlite_statement], and destroying that finalizes it. *)
Lemma operator_call_accepted this req args w p obj :
  prepare_answer (eng w) (db_ this) req (size_as_int req)
    = (SQLITE_OK, p, obj) ->
  binds_accepted obj 1 args ->
  operator_call this req args w
  = (Returned (SqliteStatement p p),
     World (eng w) (<[p:=obj]> (statements w)) (<[p:=1%nat]> (use_count w))
       ((calls w ++ [call_prepare_v2 (db_ this) req
                       (size_as_int req)])
        ++ bind_calls p 1 args)).
Proof.
  intros Hprep Hok. rewrite (operator_call_prepared _ _ _ _ _ _ Hprep).
  erewrite bindM_returned; cycle 1.
  { eapply (bind_args_accepted p obj args 1); [|done].
    cbn [statements]. apply lookup_insert_eq. }
  done.
Qed.

Lemma sqlite_statement_delete_finalizes p w :
  use_count w !! p = Some 1%nat ->
  sqlite_statement_delete (SqliteStatement p p) w
  = (Returned tt,
     World (eng w) (delete p (statements w)) (delete p (use_count w))
       (calls w ++ [call_finalize p])).
Proof.
  intros Hp. unfold sqlite_statement_delete, shared_ptr_release, bindM, get.
  cbn. by rewrite Hp.
Qed.

(** ** Failures *)








(** ** Binding *)

Lemma bind_overload_misses_only_int64 v :
  bind_overload v = None <-> exists d, v = v_int64 d.
Proof.
  split; [|by intros [d ->]]. destruct v; try done. by eexists.
Qed.


(** C8 (the code departs from it).  A member whose name is the name of no
    column of the row is the same after the row is marshalled, as long as the
    row has no more columns than the record has fields; on a wider row
    [row_to_sio] reads [filled] out of bounds (the defect of C2) and nothing
    is known of the member afterwards. *)
Theorem unmatched_field_unchanged (s : sqlite3_stmt) (o : sio) (j : nat)
    (m : member) :
  o !! j = Some m ->
  symbol_name m ∉ col_name <$> row s ->
  ((length (row s) ≤ length o)%nat ->
     exists o', row_to_sio s o = Some o' /\ o' !! j = Some m)
  /\ ((length o < length (row s))%nat -> row_to_sio s o = None).
Proof.
  intros Hj Hm. split.
  - intros Hle. exists (assign_all (row s) o).
    split; [by apply row_to_sio_in_bounds|by apply assign_all_other].
  - intros Hlt. apply row_to_sio_out_of_bounds; [|done]. by intros ->.
Qed.

Lemma unmatched_field_unchanged_witness :
  row_to_sio (stmt_on_row row_a_x_y) record_ab = None
  /\ exists o',
       row_to_sio (stmt_on_row row_extra_a) record_ab = Some o'
       /\ o' !! 1%nat = Some (Member "b" (v_int 7)).
Proof.
  split.
  - apply (proj2 (unmatched_field_unchanged (stmt_on_row row_a_x_y) record_ab
                    1 (Member "b" (v_int 7)) eq_refl
                    ltac:(refine (bool_decide_unpack _ _);
                          vm_compute; exact I))).
    simpl. lia.
  - apply (proj1 (unmatched_field_unchanged (stmt_on_row row_extra_a)
                    record_ab 1 (Member "b" (v_int 7)) eq_refl
                    ltac:(refine (bool_decide_unpack _ _);
                          vm_compute; exact I))).
    simpl. lia.
Defined.

(** * Further properties of the code *)

(** ** [row_to_sio]: bounds, shape, matched fields, column order *)

(** X1.  [row_to_sio] stays inside [filled] exactly when the row has no more
    columns than the record has fields, or the record has no field at all
    (the inner loop then never runs). *)
Theorem row_to_sio_defined_iff (s : sqlite3_stmt) (o : sio) :
  is_Some (row_to_sio s o) <-> (length (row s) ≤ length o)%nat \/ o = [].
Proof.
  rewrite row_to_sio_marshal. unfold marshal.
  destruct (decide (length (row s) ≤ length o)%nat) as [Hle|Hgt].
  - split; [by left|by eexists].
  - destruct (decide (o = [])) as [->|Hne].
    + split; [by right|by eexists].
    + split; [by intros [? ?]|]. intros [?|?]; [lia|done].
Qed.

Lemma same_type_read_from c v : same_type (read_from c v) v.
Proof. by destruct v. Qed.

Lemma same_type_refl v : same_type v v.
Proof. by destruct v. Qed.

Lemma same_type_trans v1 v2 v3 :
  same_type v1 v2 -> same_type v2 v3 -> same_type v1 v3.
Proof. by destruct v1, v2, v3. Qed.

Lemma same_shape_refl o : same_shape o o.
Proof.
  induction o as [|m o IH]; constructor; [|done].
  split; [done|apply same_type_refl].
Qed.

Lemma same_shape_trans o1 o2 o3 :
  same_shape o1 o2 -> same_shape o2 o3 -> same_shape o1 o3.
Proof.
  intros H12; revert o3.
  induction H12 as [|m1 m2 o1 o2 [Hn Ht] _ IH]; intros o3 H23.
  - exact H23.
  - inversion H23 as [|? m3 ? o3' [Hn' Ht'] H23']; subst. constructor.
    + split; [congruence|by eapply same_type_trans].
    + by apply IH.
Qed.

Lemma same_shape_assign c o : same_shape (assign c o) o.
Proof.
  induction o as [|m o IH]; [constructor|]. cbn [assign].
  destruct (_ =? 0).
  - constructor; [|apply same_shape_refl].
    split; [done|apply same_type_read_from].
  - constructor; [|done]. split; [done|apply same_type_refl].
Qed.

Lemma same_shape_assign_all r : forall o, same_shape (assign_all r o) o.
Proof.
  induction r as [|c r IH]; intros o; [apply same_shape_refl|].
  change (assign_all (c :: r) o) with (assign_all r (assign c o)).
  eapply same_shape_trans; [apply IH|apply same_shape_assign].
Qed.

(** X2.  Marshalling a row changes values only: the record keeps its member
    names, their order and the type of every member. *)
Theorem row_to_sio_keeps_shape (s : sqlite3_stmt) (o o' : sio) :
  row_to_sio s o = Some o' -> same_shape o' o /\ names o' = names o.
Proof.
  rewrite row_to_sio_marshal. unfold marshal. intros Hrun.
  destruct (decide _).
  - injection Hrun as <-.
    split; [apply same_shape_assign_all|apply names_assign_all].
  - destruct (decide _) as [->|]; [|done]. injection Hrun as <-.
    split; [constructor|done].
Qed.

Lemma row_to_sio_keeps_shape_witness :
  same_shape [Member "a" (v_int 1); Member "b" (v_int 7)] record_ab
  /\ names [Member "a" (v_int 1); Member "b" (v_int 7)] = names record_ab.
Proof.
  apply (row_to_sio_keeps_shape (stmt_on_row row_extra_a)). reflexivity.
Defined.

Lemma assign_first c o : forall j m,
  o !! j = Some m ->
  symbol_name m = col_name c ->
  (forall k m', (k < j)%nat -> o !! k = Some m' -> symbol_name m' ≠ col_name c) ->
  assign c o !! j = Some (Member (symbol_name m) (read_from c (value m))).
Proof.
  induction o as [|m0 o IH]; intros j m Hj Hm Hfirst; [done|].
  cbn [assign].
  destruct (Z.eqb_spec (strcmp (col_name c) (symbol_name m0)) 0) as [E|E].
  - apply strcmp_0 in E. destruct j as [|j].
    + cbn in Hj. by injection Hj as ->.
    + by destruct (Hfirst 0%nat m0 ltac:(lia) eq_refl).
  - destruct j as [|j].
    + cbn in Hj. injection Hj as ->. rewrite strcmp_0 in E. congruence.
    + cbn. apply IH; [done..|]. intros k m' Hk Hk'.
      apply (Hfirst (S k) m'); [lia|done].
Qed.

Lemma lookup_names o j m :
  o !! j = Some m -> names o !! j = Some (symbol_name m).
Proof.
  intros H. unfold names, sio in *. by rewrite list_lookup_fmap, H.
Qed.

(** X3.  When the column names of a row are pairwise distinct and the row is
    no wider than the record, the first member named like a column holds,
    after marshalling, the value read from that column with the reader of the
    member's type. *)
Theorem row_to_sio_matched_field (s : sqlite3_stmt) (o : sio)
    (pre post : list column) (c : column) (j : nat) (m : member) :
  row s = pre ++ c :: post ->
  NoDup (col_name <$> row s) ->
  (length (row s) ≤ length o)%nat ->
  o !! j = Some m ->
  symbol_name m = col_name c ->
  (forall k m', (k < j)%nat -> o !! k = Some m' -> symbol_name m' ≠ col_name c) ->
  exists o',
    row_to_sio s o = Some o'
    /\ o' !! j = Some (Member (symbol_name m) (read_from c (value m))).
Proof.
  intros Hrow Hnd Hle Hj Hm Hfirst.
  exists (assign_all (row s) o). split; [by apply row_to_sio_in_bounds|].
  rewrite Hrow in Hnd |- *. rewrite fmap_app, fmap_cons in Hnd.
  apply NoDup_app in Hnd as (_ & Hpre & Hnd).
  apply NoDup_cons in Hnd as [Hpost _].
  rewrite assign_all_app.
  change (assign_all (c :: post) ?x) with (assign_all post (assign c x)).
  apply assign_all_other; [|cbn; by rewrite Hm].
  apply assign_first.
  - apply assign_all_other; [done|]. rewrite Hm. intros Hin.
    apply (Hpre _ Hin). by left.
  - done.
  - intros k m' Hk Hk'. apply lookup_names in Hk'.
    rewrite names_assign_all in Hk'.
    destruct (o !! k) as [m0|] eqn:Hk0.
    + rewrite (lookup_names _ _ _ Hk0) in Hk'. injection Hk' as <-.
      by apply (Hfirst k m0).
    + unfold names, sio in *. by rewrite list_lookup_fmap, Hk0 in Hk'.
Qed.

Lemma row_to_sio_matched_field_witness :
  exists o',
    row_to_sio (stmt_on_row row_b_a) record_ab = Some o'
    /\ o' !! 1%nat = Some (Member "b" (v_int 5)).
Proof.
  apply (row_to_sio_matched_field (stmt_on_row row_b_a) record_ab
           [] [int_col "a" 1] (int_col "b" 5) 1 (Member "b" (v_int 7))).
  - reflexivity.
  - refine (bool_decide_unpack _ _). vm_compute. exact I.
  - simpl. lia.
  - reflexivity.
  - reflexivity.
  - intros [|k] m' Hk Hk'; [|lia]. injection Hk' as <-. discriminate.
Defined.

Lemma assign_comm c1 c2 o :
  col_name c1 ≠ col_name c2 ->
  assign c1 (assign c2 o) = assign c2 (assign c1 o).
Proof.
  intros Hne. induction o as [|m o IH]; [done|]. cbn [assign].
  destruct (Z.eqb_spec (strcmp (col_name c1) (symbol_name m)) 0) as [E1|E1];
    destruct (Z.eqb_spec (strcmp (col_name c2) (symbol_name m)) 0) as [E2|E2];
    cbn [assign symbol_name].
  - apply strcmp_0 in E1, E2. congruence.
  - rewrite (proj2 (Z.eqb_eq _ _) E1), (proj2 (Z.eqb_neq _ _) E2). done.
  - rewrite (proj2 (Z.eqb_neq _ _) E1), (proj2 (Z.eqb_eq _ _) E2). done.
  - rewrite (proj2 (Z.eqb_neq _ _) E1), (proj2 (Z.eqb_neq _ _) E2).
    by rewrite IH.
Qed.

Lemma assign_all_permutation r r' :
  r ≡ₚ r' -> NoDup (col_name <$> r) ->
  forall o, assign_all r o = assign_all r' o.
Proof.
  induction 1 as [|c r r' Hp IH|c1 c2 r|r1 r2 r3 H12 IH12 H23 IH23];
    intros Hnd o.
  - done.
  - rewrite fmap_cons in Hnd. apply NoDup_cons in Hnd as [_ Hnd].
    change (assign_all r (assign c o) = assign_all r' (assign c o)).
    by apply IH.
  - rewrite !fmap_cons in Hnd. apply NoDup_cons in Hnd as [Hne _].
    change (assign_all r (assign c1 (assign c2 o))
            = assign_all r (assign c2 (assign c1 o))).
    rewrite assign_comm; [done|]. intros E. apply Hne. rewrite E. by left.
  - rewrite IH12 by done. apply IH23. by rewrite <- H12.
Qed.

(** X4.  With pairwise distinct column names, the order of the columns does
    not matter: two rows with the same columns in different orders, no wider
    than the record, are marshalled to the same record. *)
Theorem row_to_sio_column_order (s s' : sqlite3_stmt) (o : sio) :
  row s ≡ₚ row s' ->
  NoDup (col_name <$> row s) ->
  (length (row s) ≤ length o)%nat ->
  row_to_sio s o = row_to_sio s' o
  /\ is_Some (row_to_sio s o).
Proof.
  intros Hp Hnd Hle.
  rewrite (row_to_sio_in_bounds s) by done.
  rewrite (row_to_sio_in_bounds s') by (by rewrite <- Hp).
  split; [|by eexists]. f_equal. by apply assign_all_permutation.
Qed.

Lemma row_to_sio_column_order_witness :
  row_to_sio (stmt_on_row row_a_b) record_ab
  = row_to_sio (stmt_on_row row_b_a) record_ab.
Proof.
  apply (row_to_sio_column_order (stmt_on_row row_a_b) (stmt_on_row row_b_a)).
  - apply perm_swap.
  - refine (bool_decide_unpack _ _). vm_compute. exact I.
  - simpl. lia.
Defined.

(** ** Which engine calls a function makes *)

Lemma only_calls_silent {A} P (m : M A) :
  (forall w, calls (m w).2 = calls w) -> only_calls P m.
Proof. intros H w. exists []. by rewrite H, app_nil_r. Qed.

Lemma only_calls_log (P : call -> Prop) c : P c -> only_calls P (log c).
Proof. intros Hc w. exists [c]. split; [done|by constructor]. Qed.


Lemma only_calls_bindM {A B} P (m : M A) (k : A -> M B) :
  only_calls P m -> (forall a, only_calls P (k a)) -> only_calls P (bindM m k).
Proof.
  intros Hm Hk w. unfold bindM. destruct (Hm w) as (r1 & H1 & P1).
  destruct (m w) as [[a| |] w1]; cbn in *; [|by exists r1..].
  destruct (Hk a w1) as (r2 & H2 & P2). exists (r1 ++ r2).
  rewrite H2, H1, app_assoc. split; [done|by apply Forall_app].
Qed.

Ltac only_calls_step :=
  match goal with
  | |- forall _, _ => intro
  | |- only_calls _ (bindM _ _) => apply only_calls_bindM
  | |- only_calls _ (log _) => apply only_calls_log; done
  | |- only_calls _ (match ?x with _ => _ end) => destruct x
  | |- only_calls _ _ => solve [apply only_calls_silent; done]
  end.

Lemma only_calls_errstr P code : only_calls P (errstr code).
Proof. unfold errstr. repeat only_calls_step. Qed.

Section statement_calls.
Context (this : sqlite_statement).






End statement_calls.


(** ** [operator|]: what it throws, and where it stops *)




(** X7.  [operator|] stops at the first step that does not answer
    [SQLITE_ROW], whatever the code: when the rows before it are no wider
    than the record and the visitor returns, it returns normally with those
    rows visited, and what the engine had after that step, rows included, is
    left pending. *)
Theorem operator_pipe_stops_at_first_non_row {A : Type}
    (this : sqlite_statement) (T0 : sio) (g : sio -> A -> A) (acc : A)
    (w : world) (s : sqlite3_stmt) (rows : list (list column))
    (r : step_result) (rest : list step_result) :
  statements w !! stmt_ this = Some s ->
  pending s = (StepResult SQLITE_ROW <$> rows) ++ r :: rest ->
  step_code r ≠ SQLITE_ROW ->
  Forall (fits T0) rows ->
  exists os w' s',
    Forall2 (marshalled T0) rows os
    /\ operator_pipe this T0 (returns g) acc w
       = (Returned (fold_left (fun a o => g o a) os acc), w')
    /\ statements w' !! stmt_ this = Some s'
    /\ pending s' = rest
    /\ cursor s' = cursor_of_code (step_code r).
Proof.
  intros Hs Hp Hr Hfit. destruct (fits_marshalled T0 rows Hfit) as [os Hos].
  destruct (operator_pipe_rows this T0 g acc w s rows os (r :: rest) Hs Hp Hr Hos)
    as (w' & s' & made & Hrun & _ & _ & Hs' & Hp' & Hc').
  by exists os, w', s'.
Qed.

Lemma operator_pipe_stops_at_first_non_row_witness :
  exists os w' s',
    Forall2 (marshalled record_a) [[int_col "a" 1]] os
    /\ operator_pipe (SqliteStatement 2 2) record_a
         (returns (fun o visited => visited ++ [o])) []
         (world_with 2 stmt_rows_then_busy)
       = (Returned (fold_left (fun a o => a ++ [o]) os []), w')
    /\ statements w' !! 2 = Some s'
    /\ pending s' = [StepResult SQLITE_ROW [int_col "a" 2]]
    /\ cursor s' = errored.
Proof.
  apply (operator_pipe_stops_at_first_non_row (SqliteStatement 2 2) record_a
           (fun o visited => visited ++ [o]) []
           (world_with 2 stmt_rows_then_busy) stmt_rows_then_busy
           [[int_col "a" 1]] (StepResult SQLITE_BUSY [])
           [StepResult SQLITE_ROW [int_col "a" 2]]).
  - reflexivity.
  - reflexivity.
  - discriminate.
  - repeat constructor.
Defined.

(** ** [append_to] *)

(** X8.  Over a result none of whose rows is wider than the record,
    [append_to] pushes one record per row onto the back of [v], in result
    order; what [v] held before stays in front, unchanged. *)
Theorem append_to_appends (this : sqlite_statement) (T0 : sio)
    (v : list sio) (w : world) (s : sqlite3_stmt)
    (rows : list (list column)) (tail : list step_result) :
  statements w !! stmt_ this = Some s ->
  pending s = (StepResult SQLITE_ROW <$> rows) ++ tail ->
  match tail with [] => True | r :: _ => step_code r ≠ SQLITE_ROW end ->
  Forall (fits T0) rows ->
  exists os,
    Forall2 (marshalled T0) rows os
    /\ (append_to this T0 v w).1 = Returned (v ++ os).
Proof.
  intros Hs Hp Htail Hfit. destruct (fits_marshalled T0 rows Hfit) as [os Hos].
  exists os. split; [done|]. unfold append_to.
  destruct (operator_pipe_rows this T0 (fun o v => v ++ [o]) v w s rows os
              tail Hs Hp Htail Hos) as (w' & _ & _ & -> & _).
  cbn. by rewrite fold_left_snoc.
Qed.

Lemma append_to_appends_witness :
  exists os,
    Forall2 (marshalled record_ab) two_rows os
    /\ (append_to (SqliteStatement 2 2) record_ab [record_ab]
          (world_with 2 (stmt_with_rows two_rows))).1
       = Returned ([record_ab] ++ os).
Proof.
  apply (append_to_appends (SqliteStatement 2 2) record_ab [record_ab]
           (world_with 2 (stmt_with_rows two_rows)) (stmt_with_rows two_rows)
           two_rows []).
  - reflexivity.
  - reflexivity.
  - exact I.
  - repeat constructor; unfold fits; simpl; lia.
Defined.

(** ** [sqlite_database::operator()]: the calls it makes, success, failure *)

Lemma only_calls_sqlite3_bind stmt pos b :
  only_calls is_prepare_or_bind (sqlite3_bind stmt pos b).
Proof. unfold sqlite3_bind. repeat only_calls_step. Qed.

Lemma only_calls_bind_args stmt args :
  forall i, only_calls is_prepare_or_bind (bind_args stmt i args).
Proof.
  induction args as [|a args IH]; intros i; cbn [bind_args].
  - repeat only_calls_step.
  - apply only_calls_bindM.
    + destruct a; apply only_calls_sqlite3_bind.
    + intros err. destruct (negb _); [|apply IH].
      apply only_calls_bindM; [apply only_calls_errstr|].
      repeat only_calls_step.
Qed.

(** X11.  Whatever the engine answers, [operator()] calls it only to prepare
    and to bind: it never steps the statement (no row is fetched before the
    statement is consumed), never finalizes and never opens or closes. *)
Theorem operator_call_only_prepares_and_binds (this : sqlite_database)
    (req : string) (args : list bind_arg) :
  only_calls is_prepare_or_bind (operator_call this req args).
Proof.
  unfold operator_call. apply only_calls_bindM.
  - unfold sqlite3_prepare_v2. repeat only_calls_step.
  - intros [err stmt]. destruct (negb _).
    + apply only_calls_bindM; [apply only_calls_errstr|].
      repeat only_calls_step.
    + apply only_calls_bindM; [apply only_calls_bind_args|]. intros _.
      unfold sqlite_statement_new, shared_ptr_new. repeat only_calls_step.
Qed.

Lemma bind_calls_lookup p args : forall i (k : nat) a,
  args !! k = Some a ->
  bind_calls p i args !! k = Some (call_bind p (i + Z.of_nat k) (bound_of a)).
Proof.
  induction args as [|a0 args IH]; intros i k a Hk; [done|].
  destruct k as [|k]; cbn [bind_calls].
  - cbn in Hk. injection Hk as ->. cbn. by rewrite Z.add_0_r.
  - cbn in Hk. change (bind_calls p (i + 1) args !! k = Some
      (call_bind p (i + Z.of_nat (S k)) (bound_of a))).
    rewrite (IH (i + 1) k a Hk).
    by replace (i + 1 + Z.of_nat k) with (i + Z.of_nat (S k)) by lia.
Qed.

Lemma size_as_int_small s :
  Z.of_nat (String.length s) < 2 ^ 31 ->
  size_as_int s = Z.of_nat (String.length s).
Proof.
  intros Hs. unfold size_as_int, int_of_size_t.
  rewrite Z.mod_small by lia. lia.
Qed.

(** X12.  When the statement is prepared and every bind is accepted,
    [operator()] returns a statement that owns the handle alone; the
    arguments have been bound left to right, the k-th (from 0) at position
    k + 1; a text shorter than 2^31 bytes is bound with its full length and
    no destructor. *)
Theorem operator_call_binds_in_order (this : sqlite_database) (req : string)
    (args : list bind_arg) (w : world) (p : ptr) (obj : sqlite3_stmt) :
  prepare_answer (eng w) (db_ this) req (size_as_int req)
    = (SQLITE_OK, p, obj) ->
  binds_accepted obj 1 args ->
  (exists w' made,
     operator_call this req args w = (Returned (SqliteStatement p p), w')
     /\ calls w'
        = calls w ++ call_prepare_v2 (db_ this) req (size_as_int req) :: made
     /\ length made = length args
     /\ (forall (k : nat) a, args !! k = Some a ->
           made !! k = Some (call_bind p (1 + Z.of_nat k) (bound_of a)))
     /\ use_count w' !! p = Some 1%nat)
  /\ (forall t, Z.of_nat (String.length t) < 2 ^ 31 ->
        bound_of (arg_string t)
        = b_text t (Z.of_nat (String.length t)) nullptr).
Proof.
  intros Hprep Hok. split.
  - rewrite (operator_call_accepted _ _ _ _ _ _ Hprep Hok).
    eexists _, (bind_calls p 1 args). split; [reflexivity|].
    cbn [calls statements use_count]. split_and!.
    + by rewrite <- app_assoc.
    + clear. generalize 1. induction args as [|a args IH]; intros i; [done|].
      cbn. by rewrite IH.
    + intros k a. apply bind_calls_lookup.
    + apply lookup_insert_eq.
  - intros t Ht. cbn [bound_of]. by rewrite size_as_int_small.
Qed.

Lemma operator_call_binds_in_order_witness :
  exists w' made,
    operator_call connected_db "SELECT ?" [arg_string "x"] fresh_world
    = (Returned (SqliteStatement 2 2), w')
    /\ calls w' = call_prepare_v2 8 "SELECT ?" 8 :: made
    /\ made !! 0%nat = Some (call_bind 2 1 (b_text "x" 1 nullptr)).
Proof.
  destruct (proj1 (operator_call_binds_in_order connected_db "SELECT ?"
              [arg_string "x"] fresh_world 2 one_placeholder eq_refl
              ltac:(intros [|k] a' Hk; [reflexivity|discriminate])))
    as (w' & made & H1 & H2 & _ & H3 & _).
  exists w', made. split_and!; [exact H1|exact H2|].
  apply (H3 0%nat (arg_string "x")). reflexivity.
Defined.

(** X13.  When the engine rejects the statement text, [operator()] stops
    there: the prepare is the only call made, no argument is bound, and no
    statement and no owner is left behind. *)
Theorem operator_call_prepare_failure_leaves_nothing (this : sqlite_database)
    (req : string) (args : list bind_arg) (w : world) (err : Z) (p : ptr)
    (obj : sqlite3_stmt) :
  prepare_answer (eng w) (db_ this) req (size_as_int req)
    = (err, p, obj) ->
  err ≠ SQLITE_OK ->
  let w' := (operator_call this req args w).2 in
  calls w'
  = calls w ++ [call_prepare_v2 (db_ this) req (size_as_int req)]
  /\ statements w' = statements w
  /\ use_count w' = use_count w.
Proof.
  intros Hprep Herr. cbn zeta. unfold operator_call.
  pose proof (sqlite3_prepare_v2_run (db_ this) req
                (size_as_int req) w) as Hrun.
  rewrite Hprep in Hrun. rewrite (bindM_returned _ _ _ _ _ Hrun).
  apply Z.eqb_neq in Herr. by rewrite Herr.
Qed.

Lemma operator_call_prepare_failure_leaves_nothing_witness :
  calls (operator_call connected_db "nonsense" [arg_int 1] fresh_world).2
  = [call_prepare_v2 8 "nonsense" 8].
Proof.
  apply (operator_call_prepare_failure_leaves_nothing connected_db "nonsense"
           [arg_int 1] fresh_world SQLITE_ERROR nullptr one_placeholder).
  - reflexivity.
  - discriminate.
Defined.

(** ** Ownership of the handles *)

(** X14.  The statement that [operator()] returns is finalized when it is
    destroyed: the destructor makes the one [sqlite3_finalize] call, and the
    engine no longer holds the statement. *)
Theorem returned_statement_finalized_on_delete (this : sqlite_database)
    (req : string) (args : list bind_arg) (w : world) (p : ptr)
    (obj : sqlite3_stmt) :
  prepare_answer (eng w) (db_ this) req (size_as_int req)
    = (SQLITE_OK, p, obj) ->
  binds_accepted obj 1 args ->
  exists st w1 w2,
    operator_call this req args w = (Returned st, w1)
    /\ sqlite_statement_delete st w1 = (Returned tt, w2)
    /\ calls w2 = calls w1 ++ [call_finalize p]
    /\ statements w2 !! p = None
    /\ use_count w2 !! p = None.
Proof.
  intros Hprep Hok. rewrite (operator_call_accepted _ _ _ _ _ _ Hprep Hok).
  eexists _, _, _. split; [reflexivity|].
  rewrite sqlite_statement_delete_finalizes by apply lookup_insert_eq.
  split; [reflexivity|]. cbn [calls statements use_count].
  split_and!; [done|apply lookup_delete_eq..].
Qed.

Lemma returned_statement_finalized_on_delete_witness :
  exists st w1 w2,
    operator_call connected_db "SELECT ?" [arg_int 1] fresh_world
    = (Returned st, w1)
    /\ sqlite_statement_delete st w1 = (Returned tt, w2)
    /\ calls w2 = calls w1 ++ [call_finalize 2]
    /\ statements w2 !! 2 = None
    /\ use_count w2 !! 2 = None.
Proof.
  apply (returned_statement_finalized_on_delete connected_db "SELECT ?"
           [arg_int 1] fresh_world 2 one_placeholder).
  - reflexivity.
  - intros [|k] a' Hk; [|discriminate]. reflexivity.
Defined.

Lemma sqlite_statement_new_run p w :
  sqlite_statement_new p w
  = (Returned (SqliteStatement p p),
     World (eng w) (statements w) (<[p:=1%nat]> (use_count w)) (calls w)).
Proof. reflexivity. Qed.

Lemma sqlite_statement_copy_run this w :
  sqlite_statement_copy this w
  = (Returned (SqliteStatement (stmt_ this) (stmt_sptr_ this)),
     World (eng w) (statements w) (alter S (stmt_sptr_ this) (use_count w))
           (calls w)).
Proof. reflexivity. Qed.

Lemma sqlite_statement_delete_shared this w n :
  use_count w !! stmt_sptr_ this = Some (S (S n)) ->
  sqlite_statement_delete this w
  = (Returned tt,
     World (eng w) (statements w) (<[stmt_sptr_ this:=S n]> (use_count w))
           (calls w)).
Proof.
  intros Hp. unfold sqlite_statement_delete, shared_ptr_release, bindM, get.
  cbn. by rewrite Hp.
Qed.

(** X15.  Copies of a [sqlite_statement] share the handle: destroying the
    original while a copy lives makes no engine call and leaves the statement
    prepared; destroying the last copy finalizes it, once. *)
Theorem statement_copies_share_handle (p : ptr) (w : world) (s : sqlite3_stmt) :
  statements w !! p = Some s ->
  exists c w1 w2,
    (st <- sqlite_statement_new p ;;
     c <- sqlite_statement_copy st ;;
     _ <- sqlite_statement_delete st ;;
     ret c) w = (Returned c, w1)
    /\ stmt_ c = p
    /\ calls w1 = calls w
    /\ statements w1 !! p = Some s
    /\ sqlite_statement_delete c w1 = (Returned tt, w2)
    /\ calls w2 = calls w ++ [call_finalize p]
    /\ statements w2 !! p = None.
Proof.
  intros Hs.
  rewrite (bindM_returned _ _ _ _ _ (sqlite_statement_new_run p w)).
  rewrite (bindM_returned _ _ _ _ _ (sqlite_statement_copy_run _ _)).
  cbn [stmt_ stmt_sptr_ eng statements use_count calls].
  erewrite bindM_returned; cycle 1.
  { apply (sqlite_statement_delete_shared _ _ 0).
    cbn [stmt_sptr_ use_count]. by rewrite lookup_alter_eq, lookup_insert_eq. }
  cbn [stmt_ stmt_sptr_ eng statements use_count calls].
  eexists _, _, _. split; [reflexivity|].
  rewrite sqlite_statement_delete_finalizes
    by (cbn [use_count]; apply lookup_insert_eq).
  cbn [stmt_ eng statements use_count calls].
  split_and!; try done. apply lookup_delete_eq.
Qed.

Lemma statement_copies_share_handle_witness :
  exists c w1 w2,
    (st <- sqlite_statement_new 2 ;;
     c <- sqlite_statement_copy st ;;
     _ <- sqlite_statement_delete st ;;
     ret c) (world_with 2 one_placeholder) = (Returned c, w1)
    /\ stmt_ c = 2
    /\ calls w1 = []
    /\ statements w1 !! 2 = Some one_placeholder
    /\ sqlite_statement_delete c w1 = (Returned tt, w2)
    /\ calls w2 = [call_finalize 2]
    /\ statements w2 !! 2 = None.
Proof.
  apply (statement_copies_share_handle 2 (world_with 2 one_placeholder)
           one_placeholder).
  reflexivity.
Defined.

(** ** [sqlite_database]: connecting, reconnecting, destroying *)

Lemma sqlite3_open_v2_run filename flags w :
  sqlite3_open_v2 filename flags w
  = (Returned (open_answer (eng w) filename flags),
     World (eng w) (statements w) (use_count w)
           (calls w ++ [call_open_v2 filename flags])).
Proof. reflexivity. Qed.

Lemma connect_opened this filename flags w h :
  open_answer (eng w) filename flags = (SQLITE_OK, h) ->
  connect this filename flags w
  = bindM (match db_sptr_ this with
           | Some old => shared_ptr_release free_sqlite3_db old
           | None => ret tt
           end)
      (fun _ => ret (SqliteDatabase h (Some h)))
      (World (eng w) (statements w) (<[h:=1%nat]> (use_count w))
         (calls w ++ [call_open_v2 filename flags])).
Proof.
  intros Hopen. unfold connect.
  rewrite (bindM_returned _ _ _ _ _ (sqlite3_open_v2_run _ _ _)).
  rewrite Hopen. reflexivity.
Qed.

Lemma operator_call_first_call this req args w :
  exists rest,
    calls (operator_call this req args w).2
    = calls w
      ++ call_prepare_v2 (db_ this) req (size_as_int req) :: rest.
Proof.
  unfold operator_call.
  set (k := fun x : Z * Z => let '(err, stmt) := x in _).
  assert (forall x, extends_log (k x)) as Hk.
  { intros [err stmt]. subst k. cbn beta iota.
    destruct (negb _); repeat extends_step. }
  pose proof (sqlite3_prepare_v2_run (db_ this) req
                (size_as_int req) w) as Hrun.
  destruct (prepare_answer _ _ _ _) as [[err p] obj].
  rewrite (bindM_returned _ _ _ _ _ Hrun).
  destruct (Hk (err, p) (World (eng w)
     (if err =? SQLITE_OK then <[p:=obj]> (statements w) else statements w)
     (use_count w)
     (calls w ++ [call_prepare_v2 (db_ this) req
                    (size_as_int req)]))) as [rest ->].
  exists rest. cbn [calls]. by rewrite <- app_assoc.
Qed.

(** X16.  After a successful [connect] on a fresh object, the object owns the
    handle the engine opened, alone, and every later [operator()] on it
    prepares against that handle. *)
Theorem connect_then_execute (this : sqlite_database) (filename : string)
    (flags : Z) (w : world) (h : ptr) :
  open_answer (eng w) filename flags = (SQLITE_OK, h) ->
  db_sptr_ this = None ->
  exists db w1,
    connect this filename flags w = (Returned db, w1)
    /\ db_ db = h
    /\ calls w1 = calls w ++ [call_open_v2 filename flags]
    /\ use_count w1 !! h = Some 1%nat
    /\ forall req args, exists rest,
         calls (operator_call db req args w1).2
         = calls w1
           ++ call_prepare_v2 h req (size_as_int req) :: rest.
Proof.
  intros Hopen Hfresh. rewrite (connect_opened _ _ _ _ _ Hopen), Hfresh.
  eexists _, _. split; [reflexivity|]. cbn [db_ calls use_count].
  split_and!; [done..|apply lookup_insert_eq|].
  intros req args. apply operator_call_first_call.
Qed.

Lemma connect_then_execute_witness :
  exists db w1,
    connect sqlite_database_new "some.db" 6 fresh_world = (Returned db, w1)
    /\ db_ db = 8
    /\ calls w1 = [call_open_v2 "some.db" 6]
    /\ use_count w1 !! 8 = Some 1%nat
    /\ forall req args, exists rest,
         calls (operator_call db req args w1).2
         = calls w1
           ++ call_prepare_v2 8 req (size_as_int req) :: rest.
Proof.
  apply (connect_then_execute sqlite_database_new "some.db" 6 fresh_world 8).
  - reflexivity.
  - reflexivity.
Defined.

(** X17.  Connecting again an object that alone owns an open handle closes
    that handle: after the new open, the one [sqlite3_close_v2] call is made
    on the old handle and the object owns the new one. *)
Theorem reconnect_closes_previous (this : sqlite_database) (filename : string)
    (flags : Z) (w : world) (old h : ptr) :
  db_sptr_ this = Some old ->
  use_count w !! old = Some 1%nat ->
  open_answer (eng w) filename flags = (SQLITE_OK, h) ->
  h ≠ old ->
  exists w1,
    connect this filename flags w = (Returned (SqliteDatabase h (Some h)), w1)
    /\ calls w1
       = calls w ++ [call_open_v2 filename flags; call_close_v2 old]
    /\ use_count w1 !! old = None
    /\ use_count w1 !! h = Some 1%nat.
Proof.
  intros Hold Hcount Hopen Hne.
  rewrite (connect_opened _ _ _ _ _ Hopen), Hold.
  unfold shared_ptr_release, bindM, get. cbn [fst snd use_count].
  rewrite lookup_insert_ne, Hcount by done.
  eexists. split; [reflexivity|]. cbn [calls use_count].
  split_and!.
  - by rewrite <- app_assoc.
  - apply lookup_delete_eq.
  - rewrite lookup_delete_ne by done. apply lookup_insert_eq.
Qed.

Lemma reconnect_closes_previous_witness :
  exists w1,
    connect (SqliteDatabase 5 (Some 5)) "some.db" 6
      (World strict_engine ∅ {[5 := 1%nat]} [])
    = (Returned (SqliteDatabase 8 (Some 8)), w1)
    /\ calls w1 = [call_open_v2 "some.db" 6; call_close_v2 5]
    /\ use_count w1 !! 5 = None
    /\ use_count w1 !! 8 = Some 1%nat.
Proof.
  apply (reconnect_closes_previous (SqliteDatabase 5 (Some 5)) "some.db" 6
           (World strict_engine ∅ {[5 := 1%nat]} []) 5 8).
  - reflexivity.
  - reflexivity.
  - reflexivity.
  - discriminate.
Defined.

(** X18.  A [connect] that fails makes the open call and nothing else: it
    takes no ownership and makes no close call, so a handle the engine wrote
    for the failed open is not released by the layer. *)
Theorem connect_failure_owns_nothing (this : sqlite_database)
    (filename : string) (flags : Z) (w : world) (r : Z) (h : ptr) :
  open_answer (eng w) filename flags = (r, h) ->
  r ≠ SQLITE_OK ->
  let w' := (connect this filename flags w).2 in
  calls w' = calls w ++ [call_open_v2 filename flags]
  /\ use_count w' = use_count w.
Proof.
  intros Hopen Hr. cbn zeta. unfold connect.
  rewrite (bindM_returned _ _ _ _ _ (sqlite3_open_v2_run _ _ _)).
  rewrite Hopen. apply Z.eqb_neq in Hr. by rewrite Hr.
Qed.

Lemma connect_failure_owns_nothing_witness :
  calls (connect sqlite_database_new "nowhere.db" 6 fresh_world).2
  = [call_open_v2 "nowhere.db" 6]
  /\ use_count (connect sqlite_database_new "nowhere.db" 6 fresh_world).2 = ∅.
Proof.
  apply (connect_failure_owns_nothing sqlite_database_new "nowhere.db" 6
           fresh_world SQLITE_CANTOPEN 8).
  - reflexivity.
  - discriminate.
Defined.

(** X19.  Destroying a connected database closes its handle with the one
    [sqlite3_close_v2] call; destroying a database that was never connected
    makes no engine call. *)
Theorem database_closed_on_delete (this : sqlite_database) (filename : string)
    (flags : Z) (w : world) (h : ptr) :
  open_answer (eng w) filename flags = (SQLITE_OK, h) ->
  db_sptr_ this = None ->
  (exists db w1 w2,
     connect this filename flags w = (Returned db, w1)
     /\ sqlite_database_delete db w1 = (Returned tt, w2)
     /\ calls w2
        = calls w ++ [call_open_v2 filename flags; call_close_v2 h]
     /\ use_count w2 !! h = None)
  /\ sqlite_database_delete sqlite_database_new w = (Returned tt, w).
Proof.
  intros Hopen Hfresh. split; [|done].
  rewrite (connect_opened _ _ _ _ _ Hopen), Hfresh.
  eexists _, _, _. split; [reflexivity|].
  unfold sqlite_database_delete, shared_ptr_release, bindM, get.
  cbn [fst snd use_count db_sptr_]. rewrite lookup_insert_eq.
  split; [reflexivity|]. cbn [calls use_count]. split.
  - by rewrite <- app_assoc.
  - apply lookup_delete_eq.
Qed.

Lemma database_closed_on_delete_witness :
  exists db w1 w2,
    connect sqlite_database_new "some.db" 6 fresh_world = (Returned db, w1)
    /\ sqlite_database_delete db w1 = (Returned tt, w2)
    /\ calls w2 = [call_open_v2 "some.db" 6; call_close_v2 8]
    /\ use_count w2 !! 8 = None.
Proof.
  apply (database_closed_on_delete sqlite_database_new "some.db" 6
           fresh_world 8).
  - reflexivity.
  - reflexivity.
Defined.
